(** * MarMate, layer 1: prompt analysis engine and conversation API

    A shallow embedding of [prompt_analysis_engine.py] and
    [api_implementation.py], and the properties of the design document
    checked against it.

    Conventions of the embedding:
    - a Python [int] is a [Z], a [str] is a [string] (one character per
      code point below 256), a [float] confidence is a rational [Q]
      (only compared, never computed with);
    - a [dict] that is iterated is an association list in insertion
      order, a [dict] used as a store is a [gmap];
    - Python exceptions are values of [exn]; code that can raise returns
      an [outcome];
    - the handlers of the API thread a [World] (conversation store,
      specification repository, clock, id supply) through a state and
      exception monad [M]. *)

From stdpp Require Import gmap strings list fin_maps pretty sorting.
From Stdlib Require Import ZArith QArith Ascii.

Local Open Scope string_scope.
Local Open Scope list_scope.
Local Open Scope Z_scope.

(** ** Python exceptions and outcomes *)

Inductive exn : Type :=
  | ValueError (msg : string)
  | ValidationError (msg : string)
  | IndexError (msg : string)
  | HTTPException (status_code : nat) (detail : string)
  | Exception (msg : string).

(** [str(e)]. For an [HTTPException] Starlette prints status and detail. *)
Definition str (e : exn) : string :=
  match e with
  | ValueError msg | ValidationError msg | IndexError msg | Exception msg => msg
  | HTTPException status_code detail => pretty status_code +:+ ": " +:+ detail
  end.

Inductive outcome (A : Type) : Type :=
  | Return (a : A)
  | Raise (e : exn).
Arguments Return {A} a.
Arguments Raise {A} e.

(** HTTP status codes used by the handlers. *)
Definition HTTP_400_BAD_REQUEST : nat := 400.
Definition HTTP_403_FORBIDDEN : nat := 403.
Definition HTTP_404_NOT_FOUND : nat := 404.
Definition HTTP_500_INTERNAL_SERVER_ERROR : nat := 500.

(** ** prompt_analysis_engine.py *)

Module PromptAnalysisEngine.

(** *** The built-in [repr] of a [str]

    CPython's [unicode_repr], on the code points below 256. The text is
    wrapped in single quotes, unless it holds a single quote and no
    double quote: then it is wrapped in double quotes. Inside, the
    wrapping quote and the backslash are preceded by a backslash; tab,
    newline and carriage return are written as backslash and [t], [n],
    [r]; every other character that is not printable is written as
    backslash, [x] and its two lower-case hexadecimal digits. *)

Definition squote : ascii := ascii_of_nat 39.
Definition dquote : ascii := ascii_of_nat 34.
Definition backslash : ascii := ascii_of_nat 92.

(** [str.isprintable] on the code points below 256: the controls
    (0-31, 127-159), the no-break space (160) and the soft hyphen (173)
    are not printable; the space is. *)
Definition isprintable (c : ascii) : bool :=
  let n := N_of_ascii c in
  ((32 <=? n) && (n <? 127) || (161 <=? n) && negb (n =? 173))%N.

Definition hexdigit (n : N) : ascii :=
  ascii_of_N (if (n <? 10)%N then 48 + n else 87 + n).

Definition repr_char (quote c : ascii) : string :=
  let n := N_of_ascii c in
  if bool_decide (c = quote) || bool_decide (c = backslash)
  then String backslash (String c EmptyString)
  else if (n =? 9)%N then String backslash "t"
  else if (n =? 10)%N then String backslash "n"
  else if (n =? 13)%N then String backslash "r"
  else if isprintable c then String c EmptyString
  else String backslash
         (String "x" (String (hexdigit (n / 16)) (String (hexdigit (n mod 16)) EmptyString))).

Fixpoint repr_chars (quote : ascii) (s : string) : string :=
  match s with
  | EmptyString => EmptyString
  | String c s' => repr_char quote c +:+ repr_chars quote s'
  end.

(** [c in s] *)
Fixpoint contains (c : ascii) (s : string) : bool :=
  match s with
  | EmptyString => false
  | String c' s' => bool_decide (c' = c) || contains c s'
  end.

Definition repr_str (s : string) : string :=
  let quote := if contains squote s && negb (contains dquote s) then dquote else squote in
  String quote (repr_chars quote s +:+ String quote EmptyString).

Inductive RequirementType : Type :=
  | FUNCTIONAL
  | NON_FUNCTIONAL
  | CONSTRAINT
  | UNKNOWN.

#[global] Instance RequirementType_eq_dec : EqDecision RequirementType.
Proof. solve_decision. Defined.

Definition RequirementType_index (t : RequirementType) : nat :=
  match t with
  | FUNCTIONAL => 0 | NON_FUNCTIONAL => 1 | CONSTRAINT => 2 | UNKNOWN => 3
  end%nat.

Definition RequirementType_of_index (n : nat) : option RequirementType :=
  match n with
  | 0 => Some FUNCTIONAL | 1 => Some NON_FUNCTIONAL
  | 2 => Some CONSTRAINT | 3 => Some UNKNOWN
  | _ => None
  end%nat.

#[global] Instance RequirementType_countable : Countable RequirementType.
Proof.
  apply (inj_countable RequirementType_index RequirementType_of_index).
  by intros [].
Defined.

(** [RequirementType(value)]: lookup of an enum member by value; a value
    that names no member raises [ValueError]. *)
Definition RequirementType_of_value (value : string) : outcome RequirementType :=
  if decide (value = "functional") then Return FUNCTIONAL
  else if decide (value = "non-functional") then Return NON_FUNCTIONAL
  else if decide (value = "constraint") then Return CONSTRAINT
  else if decide (value = "unknown") then Return UNKNOWN
  else Raise (ValueError (repr_str value +:+ " is not a valid RequirementType")).

Record Entity : Type := {
  entity_name : string;
  entity_type : string;
  entity_description : string;
  entity_confidence : Q }.

Record MissingInfo : Type := {
  question : string;
  context : string;
  priority : Z;
  related_entities : list string }.

Record TechnicalTerm : Type := {
  layman_term : string;
  technical_equivalent : string;
  explanation : string;
  term_confidence : Q }.

Record AnalysisResult : Type := {
  entities : list Entity;
  missing_info : list MissingInfo;
  technical_terms : list TechnicalTerm;
  requirements : list (string * list string);
  intent : string;
  confidence : Q }.






(** *** The built-in [sorted]

    CPython sorts stably in ascending key order; with [reverse=True] it
    reverses the list, sorts it, and reverses the result, so that equal
    keys still keep their original order. *)

Section Sorted.
Context {A : Type} (key : A -> Z).

Fixpoint insert_by_key (x : A) (l : list A) : list A :=
    match l with
    | [] => [x]
    | y :: l' => if key x <=? key y then x :: y :: l' else y :: insert_by_key x l'
    end.

Fixpoint sort_by_key (l : list A) : list A :=
    match l with
    | [] => []
    | x :: l' => insert_by_key x (sort_by_key l')
    end.

(** The ascending order on keys. *)
Definition key_le (x y : A) : Prop := key x <= key y.

Definition sorted (l : list A) (descending : bool) : list A :=
    if descending then reverse (sort_by_key (reverse l)) else sort_by_key l.
End Sorted.

(** [sorted(result.missing_info, key=lambda x: x.priority, reverse=True)] *)
Definition prioritize_missing_info (result : AnalysisResult) : list MissingInfo :=
  sorted priority (missing_info result) true.

(** *** extract_requirements_by_type *)

Definition typed_requirements_init : gmap RequirementType (list string) :=
  <[FUNCTIONAL := []]> (<[NON_FUNCTIONAL := []]> (<[CONSTRAINT := []]> (<[UNKNOWN := []]> ∅))).

(** One iteration of the loop over [result.requirements.items()]. The
    subscript [typed_requirements[UNKNOWN]] cannot fail, the key being
    present from the start; [default] stands for the impossible
    [KeyError]. The assignment stores the input's own list, so a later
    [extend] on it also grows the list inside [result]; the mapping that
    is returned reads the same either way, and only that is modelled. *)
Definition bucket_step (typed_requirements : gmap RequirementType (list string))
    (item : string * list string) : gmap RequirementType (list string) :=
  let '(req_type, reqs) := item in
  match RequirementType_of_value req_type with
  | Return typed_key => <[typed_key := reqs]> typed_requirements
  | Raise _ =>
      <[UNKNOWN := default [] (typed_requirements !! UNKNOWN) ++ reqs]> typed_requirements
  end.

Definition extract_requirements_by_type (result : AnalysisResult)
    : gmap RequirementType (list string) :=
  foldl bucket_step typed_requirements_init (requirements result).

(** The four canonical categories. *)
Definition canonical_types : gset RequirementType :=
  {[FUNCTIONAL; NON_FUNCTIONAL; CONSTRAINT; UNKNOWN]}.

(** What the loop has established once the items [seen] are behind it:
    a recognized label owns its bucket, an unrecognized one has its
    requirements inside the UNKNOWN bucket. *)
Definition bucketed (seen : list (string * list string))
    (m : gmap RequirementType (list string)) : Prop :=
  is_Some (m !! UNKNOWN)
  /\ forall label reqs, (label, reqs) ∈ seen ->
       match RequirementType_of_value label with
       | Return t => m !! t = Some reqs
       | Raise _ => exists bucket, m !! UNKNOWN = Some bucket /\ reqs ⊆ bucket
       end.

(** *** analyze_prompt *)

(** [str.isspace] on the code points below 256. *)
Definition isspace (c : ascii) : bool :=
  let n := N_of_ascii c in
  ((9 <=? n) && (n <=? 13) || (28 <=? n) && (n <=? 32) || (n =? 133) || (n =? 160))%N.

Fixpoint lstrip (s : string) : string :=
  match s with
  | EmptyString => EmptyString
  | String c s' => if isspace c then lstrip s' else s
  end.

Definition rstrip (s : string) : string := String.rev (lstrip (String.rev s)).

Definition strip (s : string) : string := rstrip (lstrip s).

(** Truth value of a [str]: false exactly for the empty string. *)
Definition str_bool (s : string) : bool :=
  match s with
  | EmptyString => false
  | String _ _ => true
  end.

(** [str] of a list of strings, as the f-string of line 179 formats
    [errors]: the [repr] of each element, separated by a comma and a
    space, in square brackets. *)
Definition str_list (l : list string) : string :=
  "[" +:+ String.concat ", " (repr_str <$> l) +:+ "]".

(** The engine: its retry budget and its three LangChain collaborators.
    The language model answers differently from call to call, so the
    chain and the fixing parser (which calls the model again) take the
    number of the attempt they are invoked in; the pydantic parser is a
    function of the raw text alone. *)
Record Engine : Type := {
  max_retries : Z;
  analysis_chain_arun : Z -> string -> outcome string;
  output_parser_parse : string -> outcome AnalysisResult;
  fixing_parser_parse : Z -> string -> outcome AnalysisResult }.

(** The body of the outer [try] of one loop iteration: run the chain,
    parse directly, and only on a [ValidationError] hand the raw text to
    the fixing parser. Any other exception leaves the [try]. *)
Definition attempt_body (self : Engine) (user_prompt : string) (attempt : Z)
    : outcome AnalysisResult :=
  match analysis_chain_arun self attempt user_prompt with
  | Raise e => Raise e
  | Return raw_result =>
      match output_parser_parse self raw_result with
      | Return result => Return result
      | Raise (ValidationError _) => fixing_parser_parse self attempt raw_result
      | Raise e => Raise e
      end
  end.

Definition error_msg (attempt : Z) (e : exn) : string :=
  "Analysis attempt " +:+ pretty (attempt + 1) +:+ " failed: " +:+ str e.

Definition failed_msg (self : Engine) (errors : list string) : string :=
  "Failed to analyze prompt after " +:+ pretty (max_retries self + 1)
  +:+ " attempts: " +:+ str_list errors.

(** The messages [errors] holds after the attempts numbered [k], [k+1],
    ... failed with the exceptions [es]. *)
Definition attempt_errors (k : Z) (es : list exn) : list string :=
  zip_with error_msg (seqZ k (Z.of_nat (length es))) es.

(** [range(n)] *)
Definition range (n : Z) : list Z := seqZ 0 n.

(** The [for] loop over the remaining attempts, with the list [errors]
    accumulated so far. The second component counts the calls made to
    the analysis chain ([calls] of them before this point). A loop that
    runs out of attempts without [break] leaves [result] at [None]. *)
Fixpoint for_attempt (self : Engine) (user_prompt : string) (attempts : list Z)
    (errors : list string) (calls : nat) : outcome (option AnalysisResult) * nat :=
  match attempts with
  | [] => (Return None, calls)
  | attempt :: attempts' =>
      match attempt_body self user_prompt attempt with
      | Return result => (Return (Some result), S calls)
      | Raise e =>
          let errors := errors ++ [error_msg attempt e] in
          if attempt =? max_retries self
          then (Raise (ValueError (failed_msg self errors)), S calls)
          else for_attempt self user_prompt attempts' errors (S calls)
      end
  end.

(** [analyze_prompt] returns [cast(AnalysisResult, result)], which is
    [None] when the loop body never ran. *)
Definition analyze_prompt (self : Engine) (user_prompt : string)
    : outcome (option AnalysisResult) * nat :=
  if negb (str_bool (strip user_prompt))
  then (Raise (ValueError "Empty prompt provided"), 0%nat)
  else for_attempt self user_prompt (range (max_retries self + 1)) [] 0%nat.

(** *** get_technical_translations *)

(** The default of [min_confidence]. *)
Definition default_min_confidence : Q := 7 # 10.

(** One term of the dict comprehension: a term that passes the filter
    [term.confidence >= min_confidence] sets its key, replacing what an
    earlier term of the same name had put there. *)
Definition translation_step (min_confidence : Q) (translations : gmap string string)
    (term : TechnicalTerm) : gmap string string :=
  if Qle_bool min_confidence (term_confidence term)
  then <[layman_term term := technical_equivalent term]> translations
  else translations.

Definition get_technical_translations (result : AnalysisResult) (min_confidence : Q)
    : gmap string string :=
  foldl (translation_step min_confidence) ∅ (technical_terms result).

(** *** Vocabulary for the properties of the engine *)

(** [term] is called [name] and reaches the threshold. *)
Definition translates (min_confidence : Q) (name : string) (term : TechnicalTerm) : Prop :=
  layman_term term = name /\ Qle_bool min_confidence (term_confidence term) = true.

#[global] Instance translates_dec min_confidence name term :
  Decision (translates min_confidence name term).
Proof. unfold translates. apply _. Defined.

(** Every character of [s] is whitespace; true of the empty string. *)
Fixpoint all_space (s : string) : bool :=
  match s with
  | EmptyString => true
  | String c s' => isspace c && all_space s'
  end.

(** The label of [item] names no member of [RequirementType]. *)
Definition unrecognized (item : string * list string) : Prop :=
  forall t, RequirementType_of_value item.1 <> Return t.

#[global] Instance unrecognized_dec item : Decision (unrecognized item).
Proof.
  unfold unrecognized. destruct (RequirementType_of_value item.1) as [t|e].
  - right. intros H. by apply (H t).
  - left. intros t. discriminate.
Defined.

(** The requirements filed under labels the enumeration does not have,
    concatenated in the order of the input. *)
Definition unrecognized_requirements (items : list (string * list string)) : list string :=
  concat (snd <$> filter unrecognized items).


End PromptAnalysisEngine.

(** ** api_implementation.py *)

Module Api.
Import PromptAnalysisEngine.

(** *** Models imported from [core.models]

    Their declarations are not part of the sources at hand; the fields
    are the ones the handlers read and write, completed from the data
    model of the design document. *)

Inductive ConversationStage : Type :=
  | COLLECTING
  | CLARIFYING
  | GENERATING
  | COMPLETED.

#[global] Instance ConversationStage_eq_dec : EqDecision ConversationStage.
Proof. solve_decision. Defined.

Record Message : Type := {
  role : string;
  text : string;
  timestamp : nat }.

Record ConversationState : Type := {
  conv_id : string;
  user_id : string;
  stage : ConversationStage;
  initial_prompt : string;
  project_name : option string;
  user_skill_level : option string;
  analyzed : bool;
  analysis_result : option AnalysisResult;
  open_questions : list string;
  message_log : list Message;
  spec_id : option string }.

(** Attribute assignments [conversation.field = value]. *)
Definition set_stage (c : ConversationState) (v : ConversationStage) : ConversationState :=
  {| conv_id := conv_id c; user_id := user_id c; stage := v;
     initial_prompt := initial_prompt c; project_name := project_name c;
     user_skill_level := user_skill_level c; analyzed := analyzed c;
     analysis_result := analysis_result c; open_questions := open_questions c;
     message_log := message_log c; spec_id := spec_id c |}.

Definition set_spec_id (c : ConversationState) (v : option string) : ConversationState :=
  {| conv_id := conv_id c; user_id := user_id c; stage := stage c;
     initial_prompt := initial_prompt c; project_name := project_name c;
     user_skill_level := user_skill_level c; analyzed := analyzed c;
     analysis_result := analysis_result c; open_questions := open_questions c;
     message_log := message_log c; spec_id := v |}.

Definition set_analyzed (c : ConversationState) (v : bool) : ConversationState :=
  {| conv_id := conv_id c; user_id := user_id c; stage := stage c;
     initial_prompt := initial_prompt c; project_name := project_name c;
     user_skill_level := user_skill_level c; analyzed := v;
     analysis_result := analysis_result c; open_questions := open_questions c;
     message_log := message_log c; spec_id := spec_id c |}.

Definition set_analysis_result (c : ConversationState) (v : option AnalysisResult)
    : ConversationState :=
  {| conv_id := conv_id c; user_id := user_id c; stage := stage c;
     initial_prompt := initial_prompt c; project_name := project_name c;
     user_skill_level := user_skill_level c; analyzed := analyzed c;
     analysis_result := v; open_questions := open_questions c;
     message_log := message_log c; spec_id := spec_id c |}.

Definition set_open_questions (c : ConversationState) (v : list string) : ConversationState :=
  {| conv_id := conv_id c; user_id := user_id c; stage := stage c;
     initial_prompt := initial_prompt c; project_name := project_name c;
     user_skill_level := user_skill_level c; analyzed := analyzed c;
     analysis_result := analysis_result c; open_questions := v;
     message_log := message_log c; spec_id := spec_id c |}.

Definition set_message_log (c : ConversationState) (v : list Message) : ConversationState :=
  {| conv_id := conv_id c; user_id := user_id c; stage := stage c;
     initial_prompt := initial_prompt c; project_name := project_name c;
     user_skill_level := user_skill_level c; analyzed := analyzed c;
     analysis_result := analysis_result c; open_questions := open_questions c;
     message_log := v; spec_id := spec_id c |}.

(** Opaque payloads of the enrichment and synthesis collaborators. *)
Definition EnrichedData : Type := string.
Definition Content : Type := string.

Record ProjectSpecification : Type := {
  ps_id : string;
  ps_user_id : string;
  ps_project_name : string;
  ps_content : Content;
  ps_created_at : nat;
  ps_version : Z }.

(** *** The world the handlers run in *)

Record World : Type := {
  conversations : gmap string ConversationState;
  specifications : gmap string ProjectSpecification;
  uuid_supply : nat;
  clock : nat;
  (** every conversation state written to the store so far, oldest first *)
  persisted : list ConversationState }.

Definition M (A : Type) : Type := World -> outcome A * World.

Definition ret {A : Type} (a : A) : M A := fun w => (Return a, w).

Definition raise {A : Type} (e : exn) : M A := fun w => (Raise e, w).

Definition bind {A B : Type} (m : M A) (k : A -> M B) : M B :=
  fun w =>
    match m w with
    | (Return a, w') => k a w'
    | (Raise e, w') => (Raise e, w')
    end.

Notation "'let*' x ':=' m 'in' k" := (bind m (fun x => k))
  (at level 10, x pattern, m at level 100, k at level 200).

Notation "m ';;' k" := (bind m (fun _ => k))
  (at level 100, k at level 200, right associativity).

(** [try: m except Exception as e: handler e] *)
Definition try_except {A : Type} (m : M A) (handler : exn -> M A) : M A :=
  fun w =>
    match m w with
    | (Return a, w') => (Return a, w')
    | (Raise e, w') => handler e w'
    end.

(** Lift a computation that can raise but touches no state. *)
Definition lift {A : Type} (o : outcome A) : M A := fun w => (o, w).

(** The four ways a handler changes the world. *)
Definition store_conversation (c : ConversationState) (w : World) : World :=
  {| conversations := <[conv_id c := c]> (conversations w);
     specifications := specifications w;
     uuid_supply := uuid_supply w; clock := clock w;
     persisted := persisted w ++ [c] |}.

Definition store_specification (spec : ProjectSpecification) (w : World) : World :=
  {| conversations := conversations w;
     specifications := <[ps_id spec := spec]> (specifications w);
     uuid_supply := uuid_supply w; clock := clock w;
     persisted := persisted w |}.

Definition next_uuid (w : World) : World :=
  {| conversations := conversations w; specifications := specifications w;
     uuid_supply := S (uuid_supply w); clock := clock w;
     persisted := persisted w |}.

Definition tick (w : World) : World :=
  {| conversations := conversations w; specifications := specifications w;
     uuid_supply := uuid_supply w; clock := S (clock w);
     persisted := persisted w |}.

Definition uuid_str (n : nat) : string := "uuid-" +:+ pretty n.

(** [str(uuid.uuid4())]: a string never handed out before. *)
Definition uuid4 : M string :=
  fun w => (Return (uuid_str (uuid_supply w)), next_uuid w).

(** [datetime.now()] *)
Definition datetime_now : M nat :=
  fun w => (Return (clock w), tick w).

(** [l[0]] *)
Definition getitem0 {A : Type} (l : list A) : M A :=
  match l with
  | [] => raise (IndexError "list index out of range")
  | x :: _ => ret x
  end.

(** Truth value of a list: false exactly for the empty list. *)
Definition list_bool {A : Type} (l : list A) : bool :=
  match l with
  | [] => false
  | _ :: _ => true
  end.

Definition put_conversation (c : ConversationState) : M unit :=
  fun w => (Return tt, store_conversation c w).

(** *** core.conversation_manager.ConversationManager

    The manager keeps each conversation under its id in a key-value
    store; a read hands out a copy of what is stored and a write
    replaces the whole record. *)

(** Modelled from the spec: [ConversationManager.get_conversation] is
    missing; the conversation store's [get(id) -> ConversationState |
    notFound]. *)
Definition get_conversation (conversation_id : string) : M (option ConversationState) :=
  fun w => (Return (conversations w !! conversation_id), w).

(** Modelled from the spec: [ConversationManager.update_conversation] is
    missing; the conversation store's [put(ConversationState) -> ack]. *)
Definition update_conversation (conversation : ConversationState) : M unit :=
  put_conversation conversation.

(** Modelled from the spec: [ConversationManager.initialize_conversation]
    is missing; a conversation starts in COLLECTING with its initial
    prompt recorded, not analyzed, no open question, an empty message
    log and no specification. *)
Definition initialize_conversation (conversation_id user_id initial_prompt : string)
    (project_name user_skill_level : option string) : M unit :=
  put_conversation
    {| conv_id := conversation_id; user_id := user_id; stage := COLLECTING;
       initial_prompt := initial_prompt; project_name := project_name;
       user_skill_level := user_skill_level; analyzed := false;
       analysis_result := None; open_questions := [];
       message_log := []; spec_id := None |}.

(** Modelled from the spec: [ConversationManager.add_user_message] is
    missing; it appends (role, text, timestamp) to the stored message
    log and changes nothing else. *)
Definition add_user_message (conversation_id message : string) : M unit :=
  let* found := get_conversation conversation_id in
  match found with
  | None => raise (ValueError ("Conversation " +:+ conversation_id +:+ " not found"))
  | Some stored =>
      let* t := datetime_now in
      put_conversation
        (set_message_log stored
           (message_log stored ++ [{| role := "user"; text := message; timestamp := t |}]))
  end.

(** Modelled from the spec: [ConversationManager.answer_question] is
    missing; it records the (question, answer) pair in the stored
    message log and pops the question at the head of the stored queue;
    the answer is matched to the queue by position only, and the stage
    is left as it is. *)
Definition answer_question (conversation_id question answer : string) : M unit :=
  let* found := get_conversation conversation_id in
  match found with
  | None => raise (ValueError ("Conversation " +:+ conversation_id +:+ " not found"))
  | Some stored =>
      let* t := datetime_now in
      put_conversation
        (set_open_questions
           (set_message_log stored
              (message_log stored
               ++ [{| role := "assistant"; text := question; timestamp := t |};
                   {| role := "user"; text := answer; timestamp := t |}]))
           (tail (open_questions stored)))
  end.

(** *** core.db.repository.SpecificationRepository *)

(** Modelled from the spec: [SpecificationRepository.save_specification]
    is missing; the specification store's [save(ProjectSpecification) ->
    ack]. *)
Definition save_specification (spec : ProjectSpecification) : M unit :=
  fun w => (Return tt, store_specification spec w).

(** Modelled from the spec: [SpecificationRepository.get_specification]
    is missing; the specification store's [get(id) ->
    ProjectSpecification | notFound]. An absent id ([None]) finds
    nothing. *)
Definition repository_get_specification (spec_id : option string)
    : M (option ProjectSpecification) :=
  fun w =>
    (Return (match spec_id with
             | Some i => specifications w !! i
             | None => None
             end), w).

(** *** Request handlers *)

(** The enrichment and synthesis collaborators, both backed by the
    language model and both able to fail. *)
Record Collaborators : Type := {
  enrich_conversation_data : ConversationState -> outcome EnrichedData;
  spec_generator_generate_specification :
    ConversationState -> EnrichedData -> outcome Content }.

Record ConversationResponse : Type := {
  r_conversation_id : string;
  r_message : string;
  r_stage : ConversationStage;
  r_awaiting_user : bool;
  r_spec_ready : bool;
  r_spec_id : option string }.

Record SpecificationResponse : Type := {
  sr_spec_id : string;
  sr_project_name : string;
  sr_content : Content;
  sr_created_at : nat;
  sr_version : Z }.

(** [conversation.project_name or "Untitled Project"] *)
Definition project_name_or_default (project_name : option string) : string :=
  match project_name with
  | Some name => if str_bool name then name else "Untitled Project"
  | None => "Untitled Project"
  end.

(** The [except] clause of [generate_specification] logs and re-raises,
    so the [try] is transparent. *)
Definition generate_specification (deps : Collaborators) (conversation : ConversationState)
    : M ProjectSpecification :=
  let* enriched_data := lift (enrich_conversation_data deps conversation) in
  let* spec_content :=
    lift (spec_generator_generate_specification deps conversation enriched_data) in
  let project_name := project_name_or_default (project_name conversation) in
  let* new_id := uuid4 in
  let* created_at := datetime_now in
  let spec :=
    {| ps_id := new_id; ps_user_id := user_id conversation;
       ps_project_name := project_name; ps_content := spec_content;
       ps_created_at := created_at; ps_version := 1 |} in
  save_specification spec ;;
  ret spec.

(** The specification [generate_specification] builds in world [w] from
    the synthesized content. *)
Definition new_specification (conversation : ConversationState) (spec_content : Content)
    (w : World) : ProjectSpecification :=
  {| ps_id := uuid_str (uuid_supply w); ps_user_id := user_id conversation;
     ps_project_name := project_name_or_default (project_name conversation);
     ps_content := spec_content; ps_created_at := clock w; ps_version := 1 |}.

(** The block both the COLLECTING and the CLARIFYING branch of
    [send_message] end with once no question is open: move to
    GENERATING, store, generate, attach the id, move to COMPLETED,
    store. The two copies differ in the text of the reply only. *)
Definition generate_and_complete (deps : Collaborators) (conversation_id : string)
    (conversation : ConversationState) (reply : string) : M ConversationResponse :=
  let conversation := set_stage conversation GENERATING in
  update_conversation conversation ;;
  let* spec := generate_specification deps conversation in
  let conversation := set_spec_id conversation (Some (ps_id spec)) in
  let conversation := set_stage conversation COMPLETED in
  update_conversation conversation ;;
  ret {| r_conversation_id := conversation_id; r_message := reply;
         r_stage := COMPLETED; r_awaiting_user := false;
         r_spec_ready := true; r_spec_id := Some (ps_id spec) |}.

Definition stage_str (s : ConversationStage) : string :=
  match s with
  | COLLECTING => "ConversationStage.COLLECTING"
  | CLARIFYING => "ConversationStage.CLARIFYING"
  | GENERATING => "ConversationStage.GENERATING"
  | COMPLETED => "ConversationStage.COMPLETED"
  end.

(** The body of the [try] of [send_message]: dispatch on the stage of
    the conversation fetched at the start of the request. The COLLECTING
    branch writes that copy back after the manager has appended the
    message to the stored one; the CLARIFYING branch fetches the
    conversation again after the manager has recorded the answer. The
    final [else] is reached by GENERATING. *)
Definition process_message (deps : Collaborators) (conversation_id message : string)
    (conversation : ConversationState) : M ConversationResponse :=
  match stage conversation with
  | COLLECTING =>
      add_user_message conversation_id message ;;
      if list_bool (open_questions conversation) then
        let conversation := set_stage conversation CLARIFYING in
        let* next_question := getitem0 (open_questions conversation) in
        update_conversation conversation ;;
        ret {| r_conversation_id := conversation_id; r_message := next_question;
               r_stage := stage conversation; r_awaiting_user := true;
               r_spec_ready := false; r_spec_id := None |}
      else
        generate_and_complete deps conversation_id conversation
          "I've completed your project specification! You can view the full details or ask me questions about it."
  | CLARIFYING =>
      let* current_question := getitem0 (open_questions conversation) in
      answer_question conversation_id current_question message ;;
      let* found := get_conversation conversation_id in
      match found with
      | None => raise (Exception "'NoneType' object has no attribute 'open_questions'")
      | Some conversation =>
          if list_bool (open_questions conversation) then
            let* next_question := getitem0 (open_questions conversation) in
            ret {| r_conversation_id := conversation_id; r_message := next_question;
                   r_stage := stage conversation; r_awaiting_user := true;
                   r_spec_ready := false; r_spec_id := None |}
          else
            generate_and_complete deps conversation_id conversation
              "Great! I've completed your project specification based on our conversation. You can now view the full specification document."
      end
  | COMPLETED =>
      let* found := repository_get_specification (spec_id conversation) in
      match found with
      | None => raise (HTTPException HTTP_404_NOT_FOUND "Specification not found")
      | Some spec =>
          ret {| r_conversation_id := conversation_id;
                 r_message := "Your project '" +:+ ps_project_name spec
                              +:+ "' specification is complete. You can view the full details using the spec_id.";
                 r_stage := stage conversation; r_awaiting_user := false;
                 r_spec_ready := true; r_spec_id := Some (ps_id spec) |}
      end
  | GENERATING =>
      raise (HTTPException HTTP_400_BAD_REQUEST
               ("Invalid conversation stage: " +:+ stage_str (stage conversation)))
  end.

Definition send_message (deps : Collaborators) (conversation_id message current_user : string)
    : M ConversationResponse :=
  let* found := get_conversation conversation_id in
  match found with
  | None =>
      raise (HTTPException HTTP_404_NOT_FOUND
               ("Conversation " +:+ conversation_id +:+ " not found"))
  | Some conversation =>
      if bool_decide (user_id conversation ≠ current_user) then
        raise (HTTPException HTTP_403_FORBIDDEN "You don't have access to this conversation")
      else
        try_except (process_message deps conversation_id message conversation)
          (fun e =>
             raise (HTTPException HTTP_500_INTERNAL_SERVER_ERROR
                      ("Failed to process message: " +:+ str e)))
  end.

Definition get_specification (spec_id current_user : string) : M SpecificationResponse :=
  let* found := repository_get_specification (Some spec_id) in
  match found with
  | None =>
      raise (HTTPException HTTP_404_NOT_FOUND
               ("Specification " +:+ spec_id +:+ " not found"))
  | Some spec =>
      if bool_decide (ps_user_id spec ≠ current_user) then
        raise (HTTPException HTTP_403_FORBIDDEN "You don't have access to this specification")
      else
        ret {| sr_spec_id := ps_id spec; sr_project_name := ps_project_name spec;
               sr_content := ps_content spec; sr_created_at := ps_created_at spec;
               sr_version := ps_version spec |}
  end.

(** [start_conversation] without the scheduling of the background task:
    [analyze_initial_prompt] runs later, as a step of its own. *)
Definition start_conversation (initial_prompt : string)
    (project_name user_skill_level : option string) (current_user : string)
    : M ConversationResponse :=
  let* conversation_id := uuid4 in
  try_except
    (initialize_conversation conversation_id current_user initial_prompt
       project_name user_skill_level ;;
     ret {| r_conversation_id := conversation_id;
            r_message := "Thanks for your project description! I'm analyzing it now and will follow up with some clarifying questions momentarily.";
            r_stage := COLLECTING; r_awaiting_user := false;
            r_spec_ready := false; r_spec_id := None |})
    (fun e =>
       raise (HTTPException HTTP_500_INTERNAL_SERVER_ERROR
                ("Failed to start conversation: " +:+ str e))).

(** The background task. Every exception is caught and logged, and a
    conversation that is not found ends the task; neither is visible to
    anyone. [analyze_prompt] handing back [None] makes the attribute
    access [result.missing_info] raise, which is caught as well. *)
Definition analyze_initial_prompt (analysis_engine : Engine)
    (conversation_id initial_prompt : string) : M unit :=
  try_except
    (let* found := get_conversation conversation_id in
     match found with
     | None => ret tt
     | Some conversation =>
         let* returned := lift (fst (analyze_prompt analysis_engine initial_prompt)) in
         match returned with
         | None => raise (Exception "'NoneType' object has no attribute 'missing_info'")
         | Some analysis_result =>
             let missing_info := prioritize_missing_info analysis_result in
             let open_questions := question <$> missing_info in
             let conversation := set_analyzed conversation true in
             let conversation := set_analysis_result conversation (Some analysis_result) in
             let conversation := set_open_questions conversation open_questions in
             let conversation := set_stage conversation CLARIFYING in
             update_conversation conversation
         end
     end)
    (fun _ => ret tt).

(** *** Vocabulary for the properties *)

(** The conversation [send_message] stores on the edge into COMPLETED. *)
Definition completed_with (c : ConversationState) (spec : ProjectSpecification)
    : ConversationState :=
  set_stage (set_spec_id (set_stage c GENERATING) (Some (ps_id spec))) COMPLETED.

(** [c] after [add_user_message] at time [t]. *)
Definition with_user_message (c : ConversationState) (message : string) (t : nat)
    : ConversationState :=
  set_message_log c
    (message_log c ++ [{| role := "user"; text := message; timestamp := t |}]).

(** The log entries of answering [questions] with [answers], one pair
    per request, the first at time [t]. *)
Fixpoint qa_log (t : nat) (questions answers : list string) : list Message :=
  match questions, answers with
  | q :: questions', a :: answers' =>
      {| role := "assistant"; text := q; timestamp := t |}
      :: {| role := "user"; text := a; timestamp := t |}
      :: qa_log (S t) questions' answers'
  | _, _ => []
  end.

(** [c] after [answer_question] recorded [answer] to the head question
    [q] at time [t]. *)
Definition with_answer (c : ConversationState) (q answer : string) (t : nat)
    : ConversationState :=
  set_open_questions
    (set_message_log c (message_log c ++ qa_log t [q] [answer]))
    (tail (open_questions c)).

(** [c] once all of [questions] are answered by [answers], the first
    at time [t]: the pairs are in the log and the queue is empty. *)
Definition answered_all (c : ConversationState) (t : nat) (questions answers : list string)
    : ConversationState :=
  set_open_questions
    (set_message_log c (message_log c ++ qa_log t questions answers)) [].

(** One [send_message] request per answer, in order. *)
Fixpoint answer_each (deps : Collaborators) (conversation_id current_user : string)
    (answers : list string) (w : World) : list (outcome ConversationResponse) * World :=
  match answers with
  | [] => ([], w)
  | answer :: answers' =>
      let '(r, w1) := send_message deps conversation_id answer current_user w in
      let '(rs, w') := answer_each deps conversation_id current_user answers' w1 in
      (r :: rs, w')
  end.

(** [c] after the background task attached [analysis_result] to it. *)
Definition with_analysis (c : ConversationState) (analysis_result : AnalysisResult)
    : ConversationState :=
  set_stage
    (set_open_questions
       (set_analysis_result (set_analyzed c true) (Some analysis_result))
       (question <$> prioritize_missing_info analysis_result))
    CLARIFYING.

(** The reply that asks [next_question]. *)
Definition asks (conversation_id next_question : string) : ConversationResponse :=
  {| r_conversation_id := conversation_id; r_message := next_question;
     r_stage := CLARIFYING; r_awaiting_user := true;
     r_spec_ready := false; r_spec_id := None |}.

(** The invariant of the data model: COMPLETED iff a specification is
    attached. *)
Definition stage_spec_invariant (c : ConversationState) : Prop :=
  stage c = COMPLETED <-> is_Some (spec_id c).

Definition store_ok (w : World) : Prop :=
  map_Forall (fun _ c => stage_spec_invariant c) (conversations w).

(** A COMPLETED state names a specification that is in the repository. *)
Definition carries_generated_id (w : World) (c : ConversationState) : Prop :=
  stage c = COMPLETED ->
  exists spec, spec_id c = Some (ps_id spec) /\ specifications w !! ps_id spec = Some spec.

(** From [w] to [w']: the store of [w'] satisfies the invariant, and so
    does every state persisted in between; the COMPLETED ones among them
    name a stored specification. *)
Definition writes_ok (w w' : World) : Prop :=
  store_ok w'
  /\ exists new : list ConversationState,
       persisted w' = persisted w ++ new
       /\ Forall stage_spec_invariant new
       /\ Forall (carries_generated_id w') new.

(** *** Authentication and exception handlers *)

(** [get_current_user(token)["user_id"]]: the placeholder does not look
    at the token. *)
Definition get_current_user (token : string) : string := "test_user".

Record ErrorResponse : Type := {
  er_status : string;
  er_message : string;
  er_code : option string;
  er_details : option (list (string * string)) }.

(** The handler registered for [HTTPException]: the status code of the
    exception and the body [ErrorResponse(...).dict()]. *)
Definition http_exception_handler (status_code : nat) (detail : string)
    : nat * ErrorResponse :=
  (status_code,
   {| er_status := "error"; er_message := detail;
      er_code := Some ("HTTP_" +:+ pretty status_code); er_details := None |}).

(** [type(exc).__name__] *)
Definition type_name (e : exn) : string :=
  match e with
  | ValueError _ => "ValueError"
  | ValidationError _ => "ValidationError"
  | IndexError _ => "IndexError"
  | HTTPException _ _ => "HTTPException"
  | Exception _ => "Exception"
  end.

(** The handler registered for every other [Exception]. *)
Definition general_exception_handler (e : exn) : nat * ErrorResponse :=
  (HTTP_500_INTERNAL_SERVER_ERROR,
   {| er_status := "error"; er_message := "An unexpected error occurred";
      er_code := Some "INTERNAL_SERVER_ERROR";
      er_details := Some [("error_type", type_name e)] |}).

(** The handler the application picks for an exception that leaves a
    route. *)
Definition handle_exception (e : exn) : nat * ErrorResponse :=
  match e with
  | HTTPException status_code detail => http_exception_handler status_code detail
  | _ => general_exception_handler e
  end.

(** *** Vocabulary for the properties of send_message *)

(** The two completion messages of [send_message]. *)
Definition reply_after_collecting : string :=
  "I've completed your project specification! You can view the full details or ask me questions about it.".

Definition reply_after_clarifying : string :=
  "Great! I've completed your project specification based on our conversation. You can now view the full specification document.".

(** The reply that announces the specification [spec]. *)
Definition completed_reply (conversation_id reply : string) (spec : ProjectSpecification)
    : ConversationResponse :=
  {| r_conversation_id := conversation_id; r_message := reply;
     r_stage := COMPLETED; r_awaiting_user := false;
     r_spec_ready := true; r_spec_id := Some (ps_id spec) |}.

(** The two ends of the closing block run on [c] in world [w1], inside
    the [try]: a 500 with [c] stored in GENERATING, or the reply with
    the specification and [c] stored in COMPLETED. *)
Definition completes (conversation_id reply : string) (c : ConversationState) (w1 : World)
    (r : outcome ConversationResponse) (w' : World) : Prop :=
  let g := set_stage c GENERATING in
  let w2 := store_conversation g w1 in
  (exists detail,
     r = Raise (HTTPException HTTP_500_INTERNAL_SERVER_ERROR detail) /\ w' = w2)
  \/ (exists spec_content,
        let spec := new_specification g spec_content w2 in
        r = Return (completed_reply conversation_id reply spec)
        /\ w' = store_conversation (completed_with c spec)
                  (store_specification spec (tick (next_uuid w2)))).

(** What [send_message] answers to a conversation stored in GENERATING. *)
Definition refused_in_generating : outcome ConversationResponse :=
  Raise (HTTPException HTTP_500_INTERNAL_SERVER_ERROR
           "Failed to process message: 400: Invalid conversation stage: ConversationStage.GENERATING").

(** Every way a request to [send_message] can go, by what is stored
    under the id, who asks, and the stage: the outcome [r] and the world
    [w'] it leaves. *)
Definition send_message_behaviour (conversation_id message current_user : string)
    (w : World) (r : outcome ConversationResponse) (w' : World) : Prop :=
  match conversations w !! conversation_id with
  | None =>
      r = Raise (HTTPException HTTP_404_NOT_FOUND
                   ("Conversation " +:+ conversation_id +:+ " not found"))
      /\ w' = w
  | Some c =>
      if decide (user_id c = current_user) then
        match stage c with
        | COLLECTING =>
            let w1 :=
              store_conversation (with_user_message c message (clock w)) (tick w) in
            match open_questions c with
            | q :: _ =>
                r = Return (asks conversation_id q)
                /\ w' = store_conversation (set_stage c CLARIFYING) w1
            | [] => completes conversation_id reply_after_collecting c w1 r w'
            end
        | CLARIFYING =>
            match open_questions c with
            | [] =>
                r = Raise (HTTPException HTTP_500_INTERNAL_SERVER_ERROR
                             "Failed to process message: list index out of range")
                /\ w' = w
            | q :: _ =>
                let c1 := with_answer c q message (clock w) in
                let w1 := store_conversation c1 (tick w) in
                exists c',
                  conversations w1 !! conversation_id = Some c'
                  /\ (c' = c1 \/ c' = c)
                  /\ match open_questions c' with
                     | q' :: _ => r = Return (asks conversation_id q') /\ w' = w1
                     | [] => completes conversation_id reply_after_clarifying c' w1 r w'
                     end
            end
        | GENERATING => r = refused_in_generating /\ w' = w
        | COMPLETED =>
            w' = w
            /\ match spec_id c with
               | Some sid =>
                   match specifications w !! sid with
                   | Some spec =>
                       r = Return
                             {| r_conversation_id := conversation_id;
                                r_message := "Your project '" +:+ ps_project_name spec
                                  +:+ "' specification is complete. You can view the full details using the spec_id.";
                                r_stage := COMPLETED; r_awaiting_user := false;
                                r_spec_ready := true; r_spec_id := Some (ps_id spec) |}
                   | None =>
                       r = Raise (HTTPException HTTP_500_INTERNAL_SERVER_ERROR
                                    "Failed to process message: 404: Specification not found")
                   end
               | None =>
                   r = Raise (HTTPException HTTP_500_INTERNAL_SERVER_ERROR
                                "Failed to process message: 404: Specification not found")
               end
        end
      else
        r = Raise (HTTPException HTTP_403_FORBIDDEN
                     "You don't have access to this conversation")
        /\ w' = w
  end.

End Api.

(** ** Concrete engines, collaborators and worlds

    The inputs the properties below are run on. *)

Module Examples.
Import PromptAnalysisEngine Api.

Definition photo_prompt : string :=
  "I want a site where users upload and share photos.".

Definition ask_formats : MissingInfo :=
  {| question := "Which image formats must be supported?";
     context := "Storage and conversion depend on it";
     priority := 3; related_entities := ["photo"] |}.

Definition ask_sharing : MissingInfo :=
  {| question := "Who may see a shared photo?";
     context := "Drives the permission model";
     priority := 5; related_entities := ["photo"; "user"] |}.

Definition ask_limits : MissingInfo :=
  {| question := "Is there an upload size limit?";
     context := "Needed for capacity planning";
     priority := 3; related_entities := ["photo"] |}.

Definition result_with (questions : list MissingInfo)
    (reqs : list (string * list string)) : AnalysisResult :=
  {| entities :=
       [{| entity_name := "photo"; entity_type := "data";
           entity_description := "An uploaded image"; entity_confidence := 9 # 10 |}];
     missing_info := questions;
     technical_terms := [];
     requirements := reqs;
     intent := "Build a photo sharing site";
     confidence := 4 # 5 |}.

Definition result_two_questions : AnalysisResult :=
  result_with [ask_formats; ask_sharing] [("functional", ["Upload photos"])].

Definition result_no_question : AnalysisResult :=
  result_with [] [("functional", ["Upload photos"])].

(** An unrecognized label, then the label of the UNKNOWN member. *)
Definition result_unknown_last : AnalysisResult :=
  result_with [] [("security", ["Encrypt uploads"]); ("unknown", ["Dark mode"])].

(** A recognized label and two labels the enumeration does not have. *)
Definition result_three_categories : AnalysisResult :=
  result_with []
    [("functional", ["Upload photos"; "Share albums"]);
     ("constraints", ["Budget under 10k"]);
     ("security", ["Encrypt uploads"])].

(** An engine whose chain and parser succeed at once with [r]. *)
Definition engine_returning (r : AnalysisResult) : Engine :=
  {| max_retries := 2;
     analysis_chain_arun := fun _ _ => Return "{json}";
     output_parser_parse := fun _ => Return r;
     fixing_parser_parse := fun _ _ => Return r |}.

(** An engine whose backend times out on the first attempt and then
    answers with text the pydantic parser rejects and the fixing parser
    repairs. *)
Definition engine_flaky : Engine :=
  {| max_retries := 2;
     analysis_chain_arun := fun attempt _ =>
       if (attempt =? 0)%Z then Raise (Exception "backend timeout")
       else Return "almost json";
     output_parser_parse := fun raw =>
       if decide (raw = "{json}") then Return result_two_questions
       else Raise (ValidationError "confidence: field required");
     fixing_parser_parse := fun _ _ => Return result_two_questions |}.

(** An engine with one retry whose backend fails with a message that
    holds an apostrophe. *)
Definition engine_unreachable : Engine :=
  {| max_retries := 1;
     analysis_chain_arun := fun _ _ => Raise (Exception "model can't be reached");
     output_parser_parse := fun _ => Return result_no_question;
     fixing_parser_parse := fun _ _ => Return result_no_question |}.

(** An engine whose backend fails on every attempt. *)
Definition engine_down (budget : Z) : Engine :=
  {| max_retries := budget;
     analysis_chain_arun := fun _ _ => Raise (Exception "backend unavailable");
     output_parser_parse := fun _ => Return result_no_question;
     fixing_parser_parse := fun _ _ => Return result_no_question |}.

Definition deps_ok : Collaborators :=
  {| enrich_conversation_data := fun _ => Return "domain knowledge";
     spec_generator_generate_specification := fun _ _ => Return "specification" |}.

Definition empty_world : World :=
  {| conversations := ∅; specifications := ∅;
     uuid_supply := 0; clock := 0; persisted := [] |}.

(** The conversation [start_conversation] creates in the empty world,
    under the id "uuid-0". *)
Definition started (owner : string) : World :=
  snd (start_conversation photo_prompt (Some "PhotoShare") None owner empty_world).

Definition conversation_started (owner : string) : ConversationState :=
  {| conv_id := "uuid-0"; user_id := owner; stage := COLLECTING;
     initial_prompt := photo_prompt; project_name := Some "PhotoShare";
     user_skill_level := None; analyzed := false;
     analysis_result := None; open_questions := [];
     message_log := []; spec_id := None |}.

(** The user writes before the analysis has completed. *)
Definition early_message : World :=
  snd (send_message deps_ok "uuid-0" "It also needs albums." "test_user"
         (started "test_user")).

(** The conversation as the early message leaves it. *)
Definition conversation_completed : ConversationState :=
  {| conv_id := "uuid-0"; user_id := "test_user"; stage := COMPLETED;
     initial_prompt := photo_prompt; project_name := Some "PhotoShare";
     user_skill_level := None; analyzed := false;
     analysis_result := None; open_questions := [];
     message_log := []; spec_id := Some "uuid-1" |}.

(** The analysis completes right after the start. *)
Definition analysed (r : AnalysisResult) : World :=
  snd (analyze_initial_prompt (engine_returning r) "uuid-0" photo_prompt
         (started "test_user")).

(** The analysis completes after the early message has already taken
    the conversation to COMPLETED. *)
Definition analysed_late : World :=
  snd (analyze_initial_prompt (engine_returning result_two_questions) "uuid-0"
         photo_prompt early_message).

(** Collaborators whose enrichment step is down. *)
Definition deps_enrichment_down : Collaborators :=
  {| enrich_conversation_data := fun _ => Raise (Exception "enrichment unavailable");
     spec_generator_generate_specification := fun _ _ => Return "specification" |}.

(** The early message when the enrichment is down. *)
Definition stuck_generating : World :=
  snd (send_message deps_enrichment_down "uuid-0" "It also needs albums." "test_user"
         (started "test_user")).

(** An analysis with two terms of the same name, one of them at the
    default threshold, and a term below it. *)
Definition result_with_terms : AnalysisResult :=
  {| entities := []; missing_info := [];
     technical_terms :=
       [{| layman_term := "login"; technical_equivalent := "authentication";
           explanation := "Proving who the user is"; term_confidence := 9 # 10 |};
        {| layman_term := "login"; technical_equivalent := "session management";
           explanation := "Keeping the user signed in"; term_confidence := 7 # 10 |};
        {| layman_term := "cloud"; technical_equivalent := "object storage";
           explanation := "Where the photos go"; term_confidence := 1 # 2 |}];
     requirements := []; intent := "Build a photo sharing site";
     confidence := 4 # 5 |}.

End Examples.

Import PromptAnalysisEngine Api.

(** * Properties *)

(** ** The built-in [sorted] *)

Section SortedFacts.
Context {A : Type} (key : A -> Z).

#[local] Instance key_le_trans : Transitive (key_le key).
Proof. unfold key_le. intros x y z ? ?. lia. Qed.

Lemma insert_by_key_perm x l : insert_by_key key x l ≡ₚ x :: l.
Proof.
    induction l as [|y l IH]; simpl; [done|].
    destruct (key x <=? key y); [done|].
    rewrite IH. apply Permutation_swap.
Qed.

Lemma sort_by_key_perm l : sort_by_key key l ≡ₚ l.
Proof.
    induction l as [|x l IH]; simpl; [done|].
    by rewrite insert_by_key_perm, IH.
Qed.

Lemma insert_by_key_hd x y l :
    key y <= key x -> HdRel (key_le key) y l ->
    HdRel (key_le key) y (insert_by_key key x l).
Proof.
    intros Hyx Hhd. destruct l as [|z l]; simpl.
    - by constructor.
    - destruct (key x <=? key z); constructor; [done|].
      by inversion Hhd.
Qed.

Lemma insert_by_key_sorted x l :
    Sorted (key_le key) l -> Sorted (key_le key) (insert_by_key key x l).
Proof.
    induction 1 as [|y l Hl IH Hhd]; simpl.
    - repeat constructor.
    - destruct (Z.leb_spec (key x) (key y)).
      + repeat constructor; done.
      + constructor; [done|]. apply insert_by_key_hd; [lia|done].
Qed.

Lemma sort_by_key_sorted l : Sorted (key_le key) (sort_by_key key l).
Proof.
    induction l as [|x l IH]; simpl; [constructor|].
    by apply insert_by_key_sorted.
Qed.

  (** Insertion keeps the new element in front of the elements of the
      same key: stability of the ascending sort. *)
Lemma filter_insert_by_key p x l :
    filter (fun a => key a = p) (insert_by_key key x l)
    = filter (fun a => key a = p) (x :: l).
Proof.
    induction l as [|y l IH]; simpl; [done|].
    destruct (Z.leb_spec (key x) (key y)); [done|].
    rewrite filter_cons, IH, !filter_cons.
    repeat case_decide; try done; lia.
Qed.

Lemma filter_sort_by_key p l :
    filter (fun a => key a = p) (sort_by_key key l) = filter (fun a => key a = p) l.
Proof.
    induction l as [|x l IH]; simpl; [done|].
    by rewrite filter_insert_by_key, !filter_cons, IH.
Qed.

Lemma sorted_perm l b : sorted key l b ≡ₚ l.
Proof.
    destruct b; simpl.
    - by rewrite reverse_Permutation, sort_by_key_perm, reverse_Permutation.
    - apply sort_by_key_perm.
Qed.

Lemma sorted_reverse_descending l :
    StronglySorted (flip (key_le key)) (sorted key l true).
Proof.
    simpl. apply (Sorted_StronglySorted _).
    apply Sorted_reverse, sort_by_key_sorted.
Qed.

Lemma sorted_reverse_stable p l :
    filter (fun a => key a = p) (sorted key l true) = filter (fun a => key a = p) l.
Proof.
    simpl. rewrite filter_reverse, filter_sort_by_key, filter_reverse.
    apply reverse_involutive.
Qed.
End SortedFacts.

(** ** prioritize_missing_info *)

(** C7. The list [prioritize_missing_info] returns is a rearrangement
    of [missing_info], every item is followed only by items of lower or
    equal priority, and for each priority the items of that priority
    come out in the order they came in (the sort is stable). *)
Theorem prioritize_missing_info_descending_stable (result : AnalysisResult) :
  prioritize_missing_info result ≡ₚ missing_info result
  /\ StronglySorted (fun a b => priority b <= priority a) (prioritize_missing_info result)
  /\ forall p : Z,
       filter (fun m => priority m = p) (prioritize_missing_info result)
       = filter (fun m => priority m = p) (missing_info result).
Proof.
  unfold prioritize_missing_info. split; [|split].
  - apply sorted_perm.
  - apply (sorted_reverse_descending priority).
  - intros p. apply sorted_reverse_stable.
Qed.

(** ** analyze_prompt *)

Lemma attempt_errors_cons k e es :
  attempt_errors k (e :: es) = error_msg k e :: attempt_errors (Z.succ k) es.
Proof.
  unfold attempt_errors. simpl length.
  rewrite seqZ_cons by lia. simpl. do 3 f_equal. lia.
Qed.


Section AnalyzePrompt.
Variable self : Engine.
Variable user_prompt : string.

  (** The loop from attempt [k] on, [n] attempts being left of which the
      last one is attempt [max_retries]: it either breaks at the first
      attempt that succeeds, or all [n] fail and it raises with every
      message appended. *)
Lemma for_attempt_spec (n : nat) : forall (k : Z) (errors : list string) (calls : nat),
    (0 < n)%nat ->
    k + Z.of_nat n = max_retries self + 1 ->
    (exists (j : nat) (r : AnalysisResult),
        (j < n)%nat
        /\ attempt_body self user_prompt (k + Z.of_nat j) = Return r
        /\ (forall i : nat, (i < j)%nat ->
              exists e, attempt_body self user_prompt (k + Z.of_nat i) = Raise e)
        /\ for_attempt self user_prompt (seqZ k (Z.of_nat n)) errors calls
           = (Return (Some r), (calls + S j)%nat))
    \/ (exists es : list exn,
        length es = n
        /\ (forall (i : nat) e, es !! i = Some e ->
              attempt_body self user_prompt (k + Z.of_nat i) = Raise e)
        /\ for_attempt self user_prompt (seqZ k (Z.of_nat n)) errors calls
           = (Raise (ValueError (failed_msg self (errors ++ attempt_errors k es))),
              (calls + n)%nat)).
Proof.
    induction n as [|n' IH]; intros k errors calls Hpos Hlast; [lia|].
    rewrite seqZ_cons by lia. simpl.
    destruct (attempt_body self user_prompt k) as [r|e] eqn:Hk.
    - left. exists 0%nat, r. rewrite Z.add_0_r, Nat.add_1_r.
      split; [lia|]. split; [done|]. split; [|done]. intros i Hi. lia.
    - destruct (Z.eqb_spec k (max_retries self)) as [Heq|Hne].
      + right. exists [e]. assert (n' = 0%nat) as -> by lia.
        split; [done|]. split.
        * intros [|i] e' Hi; simplify_eq/=. by rewrite Z.add_0_r.
        * rewrite attempt_errors_cons. simpl. by rewrite Nat.add_1_r.
      + replace (Z.pred (Z.of_nat (S n'))) with (Z.of_nat n') by lia.
        destruct (IH (Z.succ k) (errors ++ [error_msg k e]) (S calls))
          as [(j & r & Hj & Hr & Hbefore & Hrun)|(es & Hlen & Hes & Hrun)]; [lia|lia| |].
        * left. exists (S j), r. split; [lia|]. split.
          { rewrite <- Hr. f_equal. lia. }
          split.
          { intros [|i] Hi.
            - exists e. by rewrite Z.add_0_r.
            - destruct (Hbefore i) as [e' He']; [lia|]. exists e'.
              rewrite <- He'. f_equal. lia. }
          rewrite Hrun. f_equal. lia.
        * right. exists (e :: es). split; [simpl; lia|]. split.
          { intros [|i] e' Hi; simplify_eq/=.
            - by rewrite Z.add_0_r.
            - rewrite <- (Hes i e' Hi). f_equal. lia. }
          rewrite Hrun, attempt_errors_cons, <- app_assoc. simpl.
          do 2 f_equal. lia.
Qed.


  (** An empty or blank prompt is turned down before any call. *)
Lemma analyze_prompt_empty :
    strip user_prompt = EmptyString ->
    analyze_prompt self user_prompt = (Raise (ValueError "Empty prompt provided"), 0%nat).
Proof. unfold analyze_prompt. by intros ->. Qed.

  (** With a negative retry budget the loop body never runs and [None]
      is returned. *)
Lemma analyze_prompt_no_attempt :
    max_retries self < 0 ->
    strip user_prompt <> EmptyString ->
    analyze_prompt self user_prompt = (Return None, 0%nat).
Proof.
    unfold analyze_prompt, range. intros Hneg Hne.
    destruct (strip user_prompt); [done|]. simpl.
    by rewrite seqZ_nil by lia.
Qed.
End AnalyzePrompt.


(** ** send_message and get_specification: access control *)

(** Whatever the [try] of [send_message] raises leaves the handler as an
    HTTP 500. *)
Lemma send_message_owner_outcome deps conversation_id message current_user w c :
  conversations w !! conversation_id = Some c ->
  user_id c = current_user ->
  send_message deps conversation_id message current_user w
  = try_except (process_message deps conversation_id message c)
      (fun e => raise (HTTPException HTTP_500_INTERNAL_SERVER_ERROR
                         ("Failed to process message: " +:+ str e))) w.
Proof.
  intros Hc Hu. unfold send_message, bind, get_conversation. rewrite Hc.
  by rewrite bool_decide_false by (intros ?; done).
Qed.

Lemma try_except_500 {A} (m : M A) prefix w status_code detail w' :
  try_except m (fun e => raise (HTTPException HTTP_500_INTERNAL_SERVER_ERROR
                                  (prefix +:+ str e))) w
  = (Raise (HTTPException status_code detail), w') ->
  status_code = HTTP_500_INTERNAL_SERVER_ERROR.
Proof.
  unfold try_except, raise. destruct (m w) as [[a|e] w'']; intros H; by simplify_eq.
Qed.

(** C8. A conversation that exists but belongs to someone else makes
    [send_message] fail with 403, and a specification that exists but
    belongs to someone else makes [get_specification] fail with 403;
    neither changes the world. 404, a different status, leaves each
    handler exactly when the conversation, respectively the
    specification, is not in its store. *)
Theorem foreign_owner_forbidden_missing_not_found
    (deps : Collaborators) (conversation_id message spec_id current_user : string)
    (w : World) :
  (forall c, conversations w !! conversation_id = Some c ->
     user_id c <> current_user ->
     send_message deps conversation_id message current_user w
     = (Raise (HTTPException HTTP_403_FORBIDDEN "You don't have access to this conversation"),
        w))
  /\ (forall spec, specifications w !! spec_id = Some spec ->
        ps_user_id spec <> current_user ->
        get_specification spec_id current_user w
        = (Raise (HTTPException HTTP_403_FORBIDDEN
                    "You don't have access to this specification"), w))
  /\ ((exists detail w',
         send_message deps conversation_id message current_user w
         = (Raise (HTTPException HTTP_404_NOT_FOUND detail), w'))
      <-> conversations w !! conversation_id = None)
  /\ ((exists detail w',
         get_specification spec_id current_user w
         = (Raise (HTTPException HTTP_404_NOT_FOUND detail), w'))
      <-> specifications w !! spec_id = None)
  /\ HTTP_403_FORBIDDEN <> HTTP_404_NOT_FOUND.
Proof.
  split; [|split; [|split; [|split]]].
  - intros c Hc Hu. unfold send_message, bind, get_conversation. rewrite Hc.
    by rewrite bool_decide_true.
  - intros spec Hs Hu.
    unfold get_specification, bind, repository_get_specification. rewrite Hs.
    by rewrite bool_decide_true.
  - split.
    + intros (detail & w' & Hrun).
      destruct (conversations w !! conversation_id) as [c|] eqn:Hc; [|done].
      exfalso. revert Hrun.
      unfold send_message, bind, get_conversation. rewrite Hc.
      case_bool_decide; [done|].
      intros Hrun. by apply try_except_500 in Hrun.
    + intros Hc. do 2 eexists.
      unfold send_message, bind, get_conversation. by rewrite Hc.
  - split.
    + intros (detail & w' & Hrun).
      destruct (specifications w !! spec_id) as [spec|] eqn:Hs; [|done].
      exfalso. revert Hrun.
      unfold get_specification, bind, repository_get_specification. rewrite Hs.
      by case_bool_decide.
    + intros Hs. do 2 eexists.
      unfold get_specification, bind, repository_get_specification. by rewrite Hs.
  - done.
Qed.

(** ** send_message: the CLARIFYING branch on an empty queue *)

(** C10. A message for a conversation stored in CLARIFYING with no open
    question makes the unguarded [open_questions[0]] raise [IndexError];
    the handler answers 500 and the world stays as it was: the stage is
    still CLARIFYING, nothing is generated. *)
Theorem send_message_clarifying_empty_queue_fails
    (deps : Collaborators) (conversation_id message current_user : string)
    (w : World) (c : ConversationState) :
  conversations w !! conversation_id = Some c ->
  user_id c = current_user ->
  stage c = CLARIFYING ->
  open_questions c = [] ->
  send_message deps conversation_id message current_user w
  = (Raise (HTTPException HTTP_500_INTERNAL_SERVER_ERROR
              "Failed to process message: list index out of range"), w).
Proof.
  intros Hc Hu Hstage Hqueue.
  rewrite (send_message_owner_outcome _ _ _ _ _ c) by done.
  unfold process_message, try_except. by rewrite Hstage, Hqueue.
Qed.

(** *** Instances *)

Import Examples.

Lemma started_lookup owner :
  conversations (started owner) !! "uuid-0" = Some (conversation_started owner).
Proof. apply (lookup_insert_eq (M:=gmap string)). Qed.

Lemma analysed_lookup r :
  conversations (analysed r) !! "uuid-0"
  = Some (with_analysis (conversation_started "test_user") r).
Proof. apply (lookup_insert_eq (M:=gmap string)). Qed.

(** C8 on a conversation that alice started and test_user writes to. *)
Lemma foreign_owner_forbidden_witness :
  send_message deps_ok "uuid-0" "Show me the rest." "test_user" (started "alice")
  = (Raise (HTTPException HTTP_403_FORBIDDEN "You don't have access to this conversation"),
     started "alice").
Proof.
  destruct (foreign_owner_forbidden_missing_not_found deps_ok "uuid-0"
              "Show me the rest." "uuid-1" "test_user" (started "alice")) as [Hforbidden _].
  apply (Hforbidden (conversation_started "alice")).
  - apply started_lookup.
  - discriminate.
Defined.

(** C10 on the conversation an analysis without questions leaves behind. *)
Lemma send_message_clarifying_empty_queue_witness :
  send_message deps_ok "uuid-0" "Anything else?" "test_user" (analysed result_no_question)
  = (Raise (HTTPException HTTP_500_INTERNAL_SERVER_ERROR
              "Failed to process message: list index out of range"),
     analysed result_no_question).
Proof.
  apply (send_message_clarifying_empty_queue_fails deps_ok "uuid-0" "Anything else?"
           "test_user" (analysed result_no_question)
           (with_analysis (conversation_started "test_user") result_no_question)).
  - apply analysed_lookup.
  - reflexivity.
  - reflexivity.
  - reflexivity.
Defined.



(** The run behind the witness, and the other ends of the loop. *)
Example analyze_prompt_flaky :
  analyze_prompt engine_flaky photo_prompt = (Return (Some result_two_questions), 2%nat).
Proof. reflexivity. Qed.

Example analyze_prompt_three_failures :
  analyze_prompt (engine_down 2) photo_prompt
  = (Raise (ValueError
       "Failed to analyze prompt after 3 attempts: ['Analysis attempt 1 failed: backend unavailable', 'Analysis attempt 2 failed: backend unavailable', 'Analysis attempt 3 failed: backend unavailable']"),
     3%nat).
Proof. reflexivity. Qed.

(** A cause with an apostrophe in it is listed in double quotes. *)
Example analyze_prompt_two_failures_quoted :
  analyze_prompt engine_unreachable photo_prompt
  = (Raise (ValueError
       ("Failed to analyze prompt after 2 attempts: ["
        +:+ String dquote "Analysis attempt 1 failed: model can't be reached"
        +:+ String dquote ", "
        +:+ String dquote "Analysis attempt 2 failed: model can't be reached"
        +:+ String dquote "]")),
     2%nat).
Proof. reflexivity. Qed.

Example analyze_prompt_blank :
  analyze_prompt engine_flaky "   " = (Raise (ValueError "Empty prompt provided"), 0%nat).
Proof. reflexivity. Qed.

(** [repr] on plain text, on text with one kind of quote and with both,
    and on a backslash, a newline and a control character. *)
Example repr_str_cases :
  repr_str "plain text" = "'plain text'"
  /\ repr_str "can't" = String dquote "can't" +:+ String dquote EmptyString
  /\ repr_str (String dquote "yes" +:+ String dquote EmptyString)
     = "'" +:+ String dquote "yes" +:+ String dquote "'"
  /\ repr_str ("can't say " +:+ String dquote "yes" +:+ String dquote EmptyString)
     = "'can" +:+ String backslash "'t say " +:+ String dquote "yes" +:+ String dquote "'"
  /\ repr_str (String backslash (String (ascii_of_nat 10) (String (ascii_of_nat 27) EmptyString)))
     = "'" +:+ String backslash (String backslash EmptyString)
       +:+ String backslash "n" +:+ String backslash "x1b'".
Proof. repeat split; reflexivity. Qed.

(** ** extract_requirements_by_type *)

Lemma bucket_step_dom m item :
  dom m = canonical_types -> dom (bucket_step m item) = canonical_types.
Proof.
  intros Hdom. destruct item as [req_type reqs]. unfold bucket_step.
  destruct (RequirementType_of_value req_type) as [typed_key|_];
    rewrite dom_insert_L, Hdom; [destruct typed_key|]; set_solver.
Qed.

Lemma foldl_bucket_step_dom items : forall m,
  dom m = canonical_types -> dom (foldl bucket_step m items) = canonical_types.
Proof.
  induction items as [|item items IH]; intros m Hdom; simpl; [done|].
  by apply IH, bucket_step_dom.
Qed.

(** The result always has exactly the four canonical keys. *)
Lemma extract_requirements_by_type_dom result :
  dom (extract_requirements_by_type result) = canonical_types.
Proof.
  apply foldl_bucket_step_dom. unfold typed_requirements_init.
  rewrite !dom_insert_L, dom_empty_L. unfold canonical_types. set_solver.
Qed.

Lemma RequirementType_of_value_inj label label' t :
  RequirementType_of_value label = Return t ->
  RequirementType_of_value label' = Return t ->
  label = label'.
Proof.
  unfold RequirementType_of_value.
  repeat case_decide; intros; simplify_eq; done.
Qed.

Lemma RequirementType_of_value_unknown label :
  RequirementType_of_value label = Return UNKNOWN -> label = "unknown".
Proof.
  unfold RequirementType_of_value. repeat case_decide; intros; simplify_eq; done.
Qed.

Lemma bucketed_step seen m label reqs :
  bucketed seen m ->
  label ∉ seen.*1 ->
  "unknown" ∉ (seen ++ [(label, reqs)]).*1 ->
  bucketed (seen ++ [(label, reqs)]) (bucket_step m (label, reqs)).
Proof.
  intros [[bucket Hbucket] Hseen] Hfresh Hunknown. unfold bucket_step.
  assert (forall label' reqs', (label', reqs') ∈ seen ->
            label' <> label /\ label' <> "unknown") as Hold.
  { intros label' reqs' Hin. split.
    - intros Heq. apply Hfresh. apply list_elem_of_fmap.
      exists (label', reqs'). by split.
    - intros Heq. apply Hunknown. rewrite fmap_app. apply elem_of_app. left.
      apply list_elem_of_fmap. exists (label', reqs'). by split. }
  assert (label <> "unknown") as Hlabel.
  { intros Heq. apply Hunknown. rewrite fmap_app. apply elem_of_app. right.
    rewrite Heq. simpl. apply list_elem_of_here. }
  destruct (RequirementType_of_value label) as [t|e] eqn:Ht.
  - assert (t <> UNKNOWN) as Hnot.
    { intros Heq. rewrite Heq in Ht. by apply RequirementType_of_value_unknown in Ht. }
    split; [rewrite lookup_insert_ne by done; eauto|].
    intros label' reqs' [Hin|Hin]%elem_of_app.
    + destruct (Hold _ _ Hin) as [Hne Hne']. specialize (Hseen _ _ Hin).
      destruct (RequirementType_of_value label') as [t'|e'] eqn:Ht'.
      * rewrite lookup_insert_ne; [done|]. intros Heq. rewrite Heq in Ht.
        by apply Hne, (RequirementType_of_value_inj label' label t').
      * by rewrite lookup_insert_ne.
    + apply list_elem_of_singleton in Hin. injection Hin as -> ->. rewrite Ht.
      apply lookup_insert_eq.
  - rewrite Hbucket. simpl. split; [rewrite lookup_insert_eq; eauto|].
    intros label' reqs' [Hin|Hin]%elem_of_app.
    + destruct (Hold _ _ Hin) as [Hne Hne']. specialize (Hseen _ _ Hin).
      destruct (RequirementType_of_value label') as [t'|e'] eqn:Ht'.
      * rewrite lookup_insert_ne; [done|]. intros Heq. rewrite <- Heq in Ht'.
        by apply Hne', RequirementType_of_value_unknown.
      * destruct Hseen as (bucket' & Hbucket' & Hsub).
        rewrite Hbucket in Hbucket'. injection Hbucket' as <-.
        exists (bucket ++ reqs). split; [apply lookup_insert_eq|].
        intros x Hx. apply elem_of_app. left. by apply Hsub.
    + apply list_elem_of_singleton in Hin. injection Hin as -> ->. rewrite Ht.
      exists (bucket ++ reqs). split; [apply lookup_insert_eq|].
      intros x Hx. apply elem_of_app. by right.
Qed.

Lemma foldl_bucket_step_bucketed items : forall seen m,
  bucketed seen m ->
  NoDup (seen ++ items).*1 ->
  "unknown" ∉ (seen ++ items).*1 ->
  bucketed (seen ++ items) (foldl bucket_step m items).
Proof.
  induction items as [|[label reqs] items IH]; intros seen m Hm Hnodup Hunknown; simpl.
  - by rewrite app_nil_r.
  - replace (seen ++ (label, reqs) :: items) with ((seen ++ [(label, reqs)]) ++ items)
      in * by by rewrite <- app_assoc.
    apply IH; [|done|done].
    apply bucketed_step; [done| |].
    + rewrite !fmap_app in Hnodup. apply NoDup_app in Hnodup as [Hnodup _].
      apply NoDup_app in Hnodup as (_ & Hdisjoint & _).
      intros Hin. apply (Hdisjoint _ Hin). simpl. apply list_elem_of_here.
    + intros Hin. apply Hunknown. rewrite fmap_app. apply elem_of_app. by left.
Qed.

(** As long as no category is labelled "unknown", nothing is lost: the
    requirements under a recognized label are that category's bucket,
    and the requirements under any other label are all in the UNKNOWN
    bucket. *)
Lemma extract_requirements_by_type_keeps_all (result : AnalysisResult) :
  NoDup (requirements result).*1 ->
  "unknown" ∉ (requirements result).*1 ->
  forall label reqs, (label, reqs) ∈ requirements result ->
    match RequirementType_of_value label with
    | Return t => extract_requirements_by_type result !! t = Some reqs
    | Raise _ =>
        exists bucket,
          extract_requirements_by_type result !! UNKNOWN = Some bucket /\ reqs ⊆ bucket
    end.
Proof.
  intros Hnodup Hunknown.
  apply (foldl_bucket_step_bucketed (requirements result) [] typed_requirements_init);
    [|done|done].
  split; [by eexists|]. intros label reqs Hin. by apply elem_of_nil in Hin.
Qed.

(** C9, at the input that shows the defect. The requirement filed under
    the unrecognized label "security" is folded into UNKNOWN, and the
    entry labelled "unknown" that follows replaces that bucket: the
    result has the four canonical keys, but "Encrypt uploads" is in none
    of its buckets. *)
Theorem unknown_label_replaces_folded_requirements :
  requirements result_unknown_last
  = [("security", ["Encrypt uploads"]); ("unknown", ["Dark mode"])]
  /\ dom (extract_requirements_by_type result_unknown_last) = canonical_types
  /\ extract_requirements_by_type result_unknown_last !! FUNCTIONAL = Some []
  /\ extract_requirements_by_type result_unknown_last !! NON_FUNCTIONAL = Some []
  /\ extract_requirements_by_type result_unknown_last !! CONSTRAINT = Some []
  /\ extract_requirements_by_type result_unknown_last !! UNKNOWN = Some ["Dark mode"].
Proof.
  split; [reflexivity|]. split; [apply extract_requirements_by_type_dom|].
  repeat split; reflexivity.
Qed.

(** ** Running the handlers *)

Lemma generate_specification_run deps c w :
  generate_specification deps c w
  = match enrich_conversation_data deps c with
    | Raise e => (Raise e, w)
    | Return enriched_data =>
        match spec_generator_generate_specification deps c enriched_data with
        | Raise e => (Raise e, w)
        | Return spec_content =>
            (Return (new_specification c spec_content w),
             store_specification (new_specification c spec_content w) (tick (next_uuid w)))
        end
    end.
Proof.
  unfold generate_specification, bind, lift.
  destruct (enrich_conversation_data deps c) as [enriched_data|]; [|done].
  by destruct (spec_generator_generate_specification deps c enriched_data).
Qed.

(** The closing block either stops in GENERATING, with the exception of
    a collaborator, or stores the new specification and the COMPLETED
    conversation. *)
Lemma generate_and_complete_run deps cid c reply w :
  let g := set_stage c GENERATING in
  let w1 := store_conversation g w in
  (exists e, generate_and_complete deps cid c reply w = (Raise e, w1))
  \/ (exists spec_content,
        let spec := new_specification g spec_content w1 in
        generate_and_complete deps cid c reply w
        = (Return {| r_conversation_id := cid; r_message := reply;
                     r_stage := COMPLETED; r_awaiting_user := false;
                     r_spec_ready := true; r_spec_id := Some (ps_id spec) |},
           store_conversation (completed_with c spec)
             (store_specification spec (tick (next_uuid w1))))).
Proof.
  intros g w1.
  unfold generate_and_complete, bind, update_conversation, put_conversation.
  fold g. fold w1. rewrite generate_specification_run.
  destruct (enrich_conversation_data deps g) as [enriched_data|e]; [|by eauto].
  destruct (spec_generator_generate_specification deps g enriched_data)
    as [spec_content|e]; [|by eauto].
  right. by exists spec_content.
Qed.

Lemma add_user_message_run cid msg w c :
  conversations w !! cid = Some c ->
  add_user_message cid msg w
  = (Return tt, store_conversation (with_user_message c msg (clock w)) (tick w)).
Proof. intros Hc. unfold add_user_message, bind, get_conversation. by rewrite Hc. Qed.

Lemma answer_question_run cid q answer w c :
  conversations w !! cid = Some c ->
  answer_question cid q answer w
  = (Return tt, store_conversation (with_answer c q answer (clock w)) (tick w)).
Proof. intros Hc. unfold answer_question, bind, get_conversation. by rewrite Hc. Qed.

Lemma process_message_collecting deps cid msg c w :
  conversations w !! cid = Some c ->
  stage c = COLLECTING ->
  let w1 := store_conversation (with_user_message c msg (clock w)) (tick w) in
  process_message deps cid msg c w
  = match open_questions c with
    | q :: _ => (Return (asks cid q), store_conversation (set_stage c CLARIFYING) w1)
    | [] =>
        generate_and_complete deps cid c
          "I've completed your project specification! You can view the full details or ask me questions about it."
          w1
    end.
Proof.
  intros Hc Hstage w1. unfold process_message. rewrite Hstage.
  unfold bind at 1. rewrite (add_user_message_run _ _ _ c) by done. fold w1.
  destruct (open_questions c) as [|q qs] eqn:Hq; simpl; [done|].
  unfold bind, update_conversation, put_conversation, ret. simpl. rewrite Hq. simpl.
  done.
Qed.

Lemma process_message_clarifying deps cid msg c w q qs :
  conversations w !! cid = Some c ->
  conv_id c = cid ->
  stage c = CLARIFYING ->
  open_questions c = q :: qs ->
  let c1 := with_answer c q msg (clock w) in
  let w1 := store_conversation c1 (tick w) in
  process_message deps cid msg c w
  = match qs with
    | q' :: _ => (Return (asks cid q'), w1)
    | [] =>
        generate_and_complete deps cid c1
          "Great! I've completed your project specification based on our conversation. You can now view the full specification document."
          w1
    end.
Proof.
  intros Hc Hid Hstage Hq c1 w1. unfold process_message. rewrite Hstage, Hq.
  simpl. unfold bind at 1. unfold ret at 1.
  unfold bind at 1. rewrite (answer_question_run _ _ _ _ c) by done. fold c1 w1.
  unfold bind at 1, get_conversation.
  assert (conversations w1 !! cid = Some c1) as ->.
  { unfold w1. simpl. rewrite <- Hid. apply lookup_insert_eq. }
  assert (open_questions c1 = qs) as Hq1 by (unfold c1; simpl; by rewrite Hq).
  rewrite Hq1. destruct qs as [|q' qs']; [done|]. simpl.
  unfold bind, ret. simpl. unfold asks. do 2 f_equal.
  unfold c1. simpl. by rewrite Hstage.
Qed.

(** ** The invariant *)

Lemma writes_ok_refl w : store_ok w -> writes_ok w w.
Proof. intros Hw. split; [done|]. exists []. by rewrite app_nil_r. Qed.

Lemma writes_ok_store_conversation w w1 c :
  writes_ok w w1 -> stage_spec_invariant c -> carries_generated_id w1 c ->
  writes_ok w (store_conversation c w1).
Proof.
  intros (Hstore & new & Hnew & Hinv & Hcarry) Hc Hcc. split.
  - unfold store_ok. simpl. by apply map_Forall_insert_2.
  - exists (new ++ [c]). simpl. rewrite Hnew, <- app_assoc. split; [done|].
    split; apply Forall_app; split; try done; by constructor.
Qed.

Lemma writes_ok_tick w w1 : writes_ok w w1 -> writes_ok w (tick w1).
Proof. done. Qed.

Lemma writes_ok_next_uuid w w1 : writes_ok w w1 -> writes_ok w (next_uuid w1).
Proof. done. Qed.

Lemma carries_store_specification w c spec :
  carries_generated_id w c -> carries_generated_id (store_specification spec w) c.
Proof.
  intros Hc Hstage. destruct (Hc Hstage) as (spec' & Hid & Hspec'). simpl.
  destruct (decide (ps_id spec = ps_id spec')) as [Heq|Hne].
  - exists spec. split; [congruence|]. apply lookup_insert_eq.
  - exists spec'. split; [done|]. by rewrite lookup_insert_ne.
Qed.

Lemma writes_ok_store_specification w w1 spec :
  writes_ok w w1 -> writes_ok w (store_specification spec w1).
Proof.
  intros (Hstore & new & Hnew & Hinv & Hcarry). split; [done|].
  exists new. split; [done|]. split; [done|].
  eapply Forall_impl; [done|]. intros c. apply carries_store_specification.
Qed.

Lemma carries_not_completed w c : stage c <> COMPLETED -> carries_generated_id w c.
Proof. by intros Hne Hstage. Qed.

Lemma invariant_set_stage c s :
  stage_spec_invariant c -> stage c <> COMPLETED -> s <> COMPLETED ->
  stage_spec_invariant (set_stage c s).
Proof.
  unfold stage_spec_invariant. simpl. intros [_ H2] Hc Hs. split; [done|].
  intros H. by apply H2 in H.
Qed.

Lemma invariant_completed_with c spec : stage_spec_invariant (completed_with c spec).
Proof. unfold stage_spec_invariant. simpl. split; eauto. Qed.

Lemma generate_and_complete_writes_ok deps cid c reply w w1 :
  writes_ok w w1 -> stage_spec_invariant c -> stage c <> COMPLETED ->
  writes_ok w (snd (generate_and_complete deps cid c reply w1)).
Proof.
  intros Hw Hc Hstage.
  assert (writes_ok w (store_conversation (set_stage c GENERATING) w1)) as Hg.
  { apply writes_ok_store_conversation; [done| |].
    - by apply invariant_set_stage.
    - by apply carries_not_completed. }
  destruct (generate_and_complete_run deps cid c reply w1)
    as [[e ->]|[spec_content ->]]; simpl; [done|].
  apply writes_ok_store_conversation.
  - by apply writes_ok_store_specification, writes_ok_tick, writes_ok_next_uuid.
  - apply invariant_completed_with.
  - intros _. eexists. split; [done|]. simpl. apply lookup_insert_eq.
Qed.

Lemma send_message_writes_ok deps cid msg user w :
  store_ok w -> writes_ok w (snd (send_message deps cid msg user w)).
Proof.
  intros Hw. pose proof (writes_ok_refl _ Hw) as Hrefl.
  unfold send_message, bind, get_conversation.
  destruct (conversations w !! cid) as [c|] eqn:Hc; simpl; [|done].
  case_bool_decide; simpl; [done|].
  assert (Hinv : stage_spec_invariant c) by (by apply (Hw cid)).
  assert (forall {A} (m : M A) h w0,
            snd (try_except m (fun e => raise (h e)) w0) = snd (m w0)) as ->.
  { intros A m h w0. unfold try_except, raise. by destruct (m w0) as [[?|?] ?]. }
  destruct (stage c) eqn:Hstage.
  - rewrite process_message_collecting by done.
    assert (writes_ok w (store_conversation (with_user_message c msg (clock w)) (tick w)))
      as Hlog.
    { apply writes_ok_store_conversation; [done|done|].
      apply carries_not_completed. simpl. congruence. }
    destruct (open_questions c) as [|q qs]; simpl.
    + apply generate_and_complete_writes_ok; [done|done|congruence].
    + apply writes_ok_store_conversation; [done| |].
      * apply invariant_set_stage; [done|congruence|done].
      * by apply carries_not_completed.
  - unfold process_message. rewrite Hstage.
    destruct (open_questions c) as [|q qs] eqn:Hq; simpl; [done|].
    unfold bind at 1. unfold ret at 1.
    unfold bind at 1. rewrite (answer_question_run _ _ _ _ c) by done.
    assert (writes_ok w (store_conversation (with_answer c q msg (clock w)) (tick w)))
      as Hanswer.
    { apply writes_ok_store_conversation; [done|done|].
      apply carries_not_completed. simpl. congruence. }
    unfold bind at 1, get_conversation.
    destruct (conversations (store_conversation _ _) !! cid) as [c'|] eqn:Hc'; simpl; [|done].
    assert (stage_spec_invariant c' /\ stage c' <> COMPLETED) as [Hinv' Hstage'].
    { revert Hc'. simpl. rewrite lookup_insert. case_decide; intros ?; simplify_eq/=.
      - split; [done|congruence].
      - split; [done|congruence]. }
    destruct (open_questions c') as [|q' qs']; simpl; [|done].
    by apply generate_and_complete_writes_ok.
  - unfold process_message. rewrite Hstage. simpl. done.
  - unfold process_message. rewrite Hstage. unfold bind, repository_get_specification.
    simpl. by destruct (match spec_id c with Some i => _ | None => None end).
Qed.

Lemma analyze_initial_prompt_run engine cid prompt w :
  analyze_initial_prompt engine cid prompt w
  = (Return tt,
     match conversations w !! cid, fst (analyze_prompt engine prompt) with
     | Some c, Return (Some analysis_result) =>
         store_conversation (with_analysis c analysis_result) w
     | _, _ => w
     end).
Proof.
  unfold analyze_initial_prompt, try_except, bind, get_conversation, lift.
  destruct (conversations w !! cid) as [c|]; [|done].
  by destruct (fst (analyze_prompt engine prompt)) as [[r|]|e].
Qed.

Lemma analyze_initial_prompt_writes_ok engine cid prompt w :
  store_ok w ->
  (forall c, conversations w !! cid = Some c -> stage c <> COMPLETED) ->
  writes_ok w (snd (analyze_initial_prompt engine cid prompt w)).
Proof.
  intros Hw Hstage. pose proof (writes_ok_refl _ Hw) as Hrefl.
  rewrite analyze_initial_prompt_run. simpl.
  destruct (conversations w !! cid) as [c|] eqn:Hc; [|done].
  destruct (fst (analyze_prompt engine prompt)) as [[r|]|e]; try done.
  apply writes_ok_store_conversation; [done| |by apply carries_not_completed].
  specialize (Hstage c eq_refl). pose proof (Hw cid c Hc) as [_ Hinv].
  split; [done|]. simpl. intros Hsome. by apply Hinv in Hsome.
Qed.

Lemma start_conversation_writes_ok prompt name level user w :
  store_ok w -> writes_ok w (snd (start_conversation prompt name level user w)).
Proof.
  intros Hw. unfold start_conversation, bind, uuid4, try_except,
    initialize_conversation, put_conversation, ret. simpl.
  apply writes_ok_store_conversation.
  - by apply writes_ok_next_uuid, writes_ok_refl.
  - split; [done|]. simpl. by intros [? ?].
  - by apply carries_not_completed.
Qed.

(** The closing block inside the [try] of [send_message]. *)
Lemma try_generate_and_complete deps cid c reply w :
  let g := set_stage c GENERATING in
  let w1 := store_conversation g w in
  (exists detail,
     try_except (generate_and_complete deps cid c reply)
       (fun e => raise (HTTPException HTTP_500_INTERNAL_SERVER_ERROR
                          ("Failed to process message: " +:+ str e))) w
     = (Raise (HTTPException HTTP_500_INTERNAL_SERVER_ERROR detail), w1))
  \/ (exists spec_content,
        let spec := new_specification g spec_content w1 in
        try_except (generate_and_complete deps cid c reply)
          (fun e => raise (HTTPException HTTP_500_INTERNAL_SERVER_ERROR
                             ("Failed to process message: " +:+ str e))) w
        = (Return {| r_conversation_id := cid; r_message := reply;
                     r_stage := COMPLETED; r_awaiting_user := false;
                     r_spec_ready := true; r_spec_id := Some (ps_id spec) |},
           store_conversation (completed_with c spec)
             (store_specification spec (tick (next_uuid w1))))).
Proof.
  intros g w1. unfold try_except.
  destruct (generate_and_complete_run deps cid c reply w)
    as [[e ->]|[spec_content ->]]; [left|right]; eauto.
Qed.

(** The closing block, run: it stores the conversation in GENERATING
    and then goes the way the two collaborators go. *)
Lemma generate_and_complete_exact deps cid c reply w :
  let g := set_stage c GENERATING in
  let w1 := store_conversation g w in
  generate_and_complete deps cid c reply w
  = match enrich_conversation_data deps g with
    | Raise e => (Raise e, w1)
    | Return enriched_data =>
        match spec_generator_generate_specification deps g enriched_data with
        | Raise e => (Raise e, w1)
        | Return spec_content =>
            let spec := new_specification g spec_content w1 in
            (Return {| r_conversation_id := cid; r_message := reply;
                       r_stage := COMPLETED; r_awaiting_user := false;
                       r_spec_ready := true; r_spec_id := Some (ps_id spec) |},
             store_conversation (completed_with c spec)
               (store_specification spec (tick (next_uuid w1))))
        end
    end.
Proof.
  intros g w1.
  unfold generate_and_complete, bind, update_conversation, put_conversation.
  fold g. fold w1. rewrite generate_specification_run.
  destruct (enrich_conversation_data deps g) as [enriched_data|e]; [|done].
  by destruct (spec_generator_generate_specification deps g enriched_data).
Qed.

(** C3, as the code has it. For a conversation in COLLECTING the
    handler first has the manager append the user's message to the
    stored log, and then moves on. With a question open it stores the
    conversation in CLARIFYING and asks the head question. With none,
    as before the analysis has completed, it stores the conversation in
    GENERATING and runs the generation on it, and the two collaborators
    decide the rest. If the enrichment returns and the synthesis
    returns, the new specification is stored under a fresh id, the
    conversation is stored in COMPLETED with that id, and the reply
    carries it. If the enrichment raises, or returns and the synthesis
    raises, the request answers 500 with the text of that exception,
    no specification is stored and the conversation stays stored in
    GENERATING. *)
Theorem send_message_collecting_moves_on deps cid msg user w c :
  conversations w !! cid = Some c ->
  user_id c = user ->
  stage c = COLLECTING ->
  let w1 := store_conversation (with_user_message c msg (clock w)) (tick w) in
  let g := set_stage c GENERATING in
  let w2 := store_conversation g w1 in
  let failed (e : exn) : outcome ConversationResponse * World :=
    (Raise (HTTPException HTTP_500_INTERNAL_SERVER_ERROR
              ("Failed to process message: " +:+ str e)), w2) in
  send_message deps cid msg user w
  = match open_questions c with
    | q :: _ => (Return (asks cid q), store_conversation (set_stage c CLARIFYING) w1)
    | [] =>
        match enrich_conversation_data deps g with
        | Raise e => failed e
        | Return enriched_data =>
            match spec_generator_generate_specification deps g enriched_data with
            | Raise e => failed e
            | Return spec_content =>
                let spec := new_specification g spec_content w2 in
                (Return {| r_conversation_id := cid;
                           r_message := "I've completed your project specification! You can view the full details or ask me questions about it.";
                           r_stage := COMPLETED; r_awaiting_user := false;
                           r_spec_ready := true; r_spec_id := Some (ps_id spec) |},
                 store_conversation (completed_with c spec)
                   (store_specification spec (tick (next_uuid w2))))
            end
        end
    end.
Proof.
  intros Hc Hu Hstage w1 g w2 failed.
  rewrite (send_message_owner_outcome _ _ _ _ _ c) by done.
  unfold try_except. rewrite process_message_collecting by done. fold w1.
  destruct (open_questions c) as [|q qs]; [|done].
  rewrite generate_and_complete_exact. fold g. fold w2.
  destruct (enrich_conversation_data deps g) as [enriched_data|e]; [|done].
  by destruct (spec_generator_generate_specification deps g enriched_data).
Qed.

Lemma send_message_clarifying_step deps cid msg user w c q qs :
  conversations w !! cid = Some c ->
  conv_id c = cid ->
  user_id c = user ->
  stage c = CLARIFYING ->
  open_questions c = q :: qs ->
  let c1 := with_answer c q msg (clock w) in
  let w1 := store_conversation c1 (tick w) in
  let g := set_stage c1 GENERATING in
  let w2 := store_conversation g w1 in
  match qs with
  | q' :: _ => send_message deps cid msg user w = (Return (asks cid q'), w1)
  | [] =>
      (exists detail,
         send_message deps cid msg user w
         = (Raise (HTTPException HTTP_500_INTERNAL_SERVER_ERROR detail), w2))
      \/ (exists spec_content,
            let spec := new_specification g spec_content w2 in
            send_message deps cid msg user w
            = (Return {| r_conversation_id := cid;
                         r_message := "Great! I've completed your project specification based on our conversation. You can now view the full specification document.";
                         r_stage := COMPLETED; r_awaiting_user := false;
                         r_spec_ready := true; r_spec_id := Some (ps_id spec) |},
               store_conversation (completed_with c1 spec)
                 (store_specification spec (tick (next_uuid w2)))))
  end.
Proof.
  intros Hc Hid Hu Hstage Hq c1 w1 g w2.
  rewrite (send_message_owner_outcome _ _ _ _ _ c) by done.
  destruct qs as [|q' qs'].
  - pose proof (try_generate_and_complete deps cid c1
      "Great! I've completed your project specification based on our conversation. You can now view the full specification document."
      w1) as Hrun.
    unfold try_except in *.
    rewrite (process_message_clarifying _ _ _ _ _ q []) by done. exact Hrun.
  - unfold try_except.
    by rewrite (process_message_clarifying _ _ _ _ _ q (q' :: qs')) by done.
Qed.

(** Answering in queue order. A conversation in CLARIFYING with the
    questions [q :: qs] open is sent one answer per question. Every
    request but the last is answered with the next question of the
    queue; the last one stores the conversation in GENERATING with an
    empty queue and every (question, answer) pair in the log, in order,
    and then either stops there (a collaborator failed) or stores it in
    COMPLETED with a specification that is in the repository. *)
Theorem answer_each_reaches_generating deps cid user :
  forall (qs : list string) (q : string) (answers : list string) (a : string)
         (w : World) (c : ConversationState),
    conversations w !! cid = Some c ->
    conv_id c = cid ->
    user_id c = user ->
    stage c = CLARIFYING ->
    open_questions c = q :: qs ->
    length answers = length qs ->
    let rs := fst (answer_each deps cid user (a :: answers) w) in
    let w' := snd (answer_each deps cid user (a :: answers) w) in
    let final := answered_all c (clock w) (q :: qs) (a :: answers) in
    take (length qs) rs = (fun q' => Return (asks cid q')) <$> qs
    /\ set_stage final GENERATING ∈ persisted w'
    /\ (conversations w' !! cid = Some (set_stage final GENERATING)
        \/ exists spec,
             conversations w' !! cid = Some (completed_with final spec)
             /\ specifications w' !! ps_id spec = Some spec).
Proof.
  induction qs as [|q' qs' IH]; intros q answers a w c Hc Hid Hu Hstage Hq Hlen.
  - destruct answers; [|done]. simpl.
    assert (answered_all c (clock w) [q] [a] = with_answer c q a (clock w)) as ->.
    { unfold answered_all, with_answer. by rewrite Hq. }
    pose proof (send_message_clarifying_step deps cid a user w c q [] Hc Hid Hu Hstage Hq)
      as [[detail ->]|[spec_content ->]]; simpl.
    + split; [done|]. split.
      * apply elem_of_app. right. apply list_elem_of_singleton. done.
      * left. rewrite <- Hid. apply lookup_insert_eq.
    + split; [done|]. split.
      * apply elem_of_app. left. apply elem_of_app. right.
        by apply list_elem_of_singleton.
      * right. eexists. split.
        -- rewrite <- Hid. apply (lookup_insert_eq (M:=gmap string)).
        -- apply lookup_insert_eq.
  - destruct answers as [|a' answers']; [done|]. simpl in Hlen.
    pose proof (send_message_clarifying_step deps cid a user w c q (q' :: qs')
                  Hc Hid Hu Hstage Hq) as Hstep.
    simpl in Hstep.
    change (answer_each deps cid user (a :: a' :: answers') w)
      with (let '(r, w1) := send_message deps cid a user w in
            let '(rs, w') := answer_each deps cid user (a' :: answers') w1 in
            (r :: rs, w')).
    rewrite Hstep.
    set (c1 := with_answer c q a (clock w)).
    set (w1 := store_conversation c1 (tick w)).
    specialize (IH q' answers' a' w1 c1).
    destruct (answer_each deps cid user (a' :: answers') w1) as [rs w'] eqn:Hrun.
    simpl in IH. simpl.
    assert (answered_all c1 (S (clock w)) (q' :: qs') (a' :: answers')
            = answered_all c (clock w) (q :: q' :: qs') (a :: a' :: answers')) as Hfinal.
    { unfold answered_all, c1, with_answer. simpl. by rewrite <- app_assoc. }
    rewrite Hfinal in IH.
    destruct IH as (Hrs & Hgen & Hend).
    + unfold w1. simpl. rewrite <- Hid. apply lookup_insert_eq.
    + done.
    + done.
    + done.
    + unfold c1. simpl. by rewrite Hq.
    + lia.
    + split; [by rewrite Hrs|]. done.
Qed.

(** ** A message in COLLECTING *)

(** C3, refuted: the conversation has just been started and its
    analysis has not completed ([analyzed] is false, no question is
    installed); the user's message does not leave it in COLLECTING but
    takes it to COMPLETED, with a specification generated and stored. *)
Lemma message_before_analysis_generates_specification :
  (analyzed <$> conversations (started "test_user") !! "uuid-0") = Some false
  /\ (stage <$> conversations (started "test_user") !! "uuid-0") = Some COLLECTING
  /\ (r_stage <$> match fst (send_message deps_ok "uuid-0" "It also needs albums."
                               "test_user" (started "test_user")) with
                  | Return response => Some response
                  | Raise _ => None
                  end) = Some COMPLETED
  /\ (stage <$> conversations early_message !! "uuid-0") = Some COMPLETED
  /\ (spec_id <$> conversations early_message !! "uuid-0") = Some (Some "uuid-1")
  /\ (ps_project_name <$> specifications early_message !! "uuid-1") = Some "PhotoShare".
Proof. repeat split; reflexivity. Qed.

(** C3 on the conversation that has just been started, with
    collaborators that work: the early message generates the
    specification "uuid-1" and completes the conversation. *)
Lemma send_message_collecting_moves_on_witness :
  let w := started "test_user" in
  let c := conversation_started "test_user" in
  let w1 := store_conversation (with_user_message c "It also needs albums." (clock w))
              (tick w) in
  let g := set_stage c GENERATING in
  let w2 := store_conversation g w1 in
  let spec := new_specification g "specification" w2 in
  send_message deps_ok "uuid-0" "It also needs albums." "test_user" w
  = (Return {| r_conversation_id := "uuid-0";
               r_message := "I've completed your project specification! You can view the full details or ask me questions about it.";
               r_stage := COMPLETED; r_awaiting_user := false;
               r_spec_ready := true; r_spec_id := Some "uuid-1" |},
     store_conversation (completed_with c spec)
       (store_specification spec (tick (next_uuid w2)))).
Proof.
  exact (send_message_collecting_moves_on deps_ok "uuid-0" "It also needs albums."
           "test_user" (started "test_user") (conversation_started "test_user")
           (started_lookup "test_user") eq_refl eq_refl).
Defined.

(** The same message when the enrichment is down: a 500 that carries
    the cause, the conversation stored in GENERATING, no specification. *)
Example send_message_collecting_enrichment_down :
  fst (send_message deps_enrichment_down "uuid-0" "It also needs albums." "test_user"
         (started "test_user"))
  = Raise (HTTPException HTTP_500_INTERNAL_SERVER_ERROR
             "Failed to process message: enrichment unavailable")
  /\ (stage <$> conversations stuck_generating !! "uuid-0") = Some GENERATING
  /\ specifications stuck_generating = ∅.
Proof. repeat split; reflexivity. Qed.

(** ** The invariant between stage and spec_id *)

Lemma store_ok_empty_world : store_ok empty_world.
Proof. apply map_Forall_empty. Qed.

Lemma store_ok_started owner : store_ok (started owner).
Proof.
  destruct (start_conversation_writes_ok photo_prompt (Some "PhotoShare") None owner
              empty_world store_ok_empty_world) as [Hstore _].
  exact Hstore.
Qed.

Lemma store_ok_early_message : store_ok early_message.
Proof.
  destruct (send_message_writes_ok deps_ok "uuid-0" "It also needs albums." "test_user"
              (started "test_user") (store_ok_started _)) as [Hstore _].
  exact Hstore.
Qed.

(** C4, refuted: the early message has taken the conversation to
    COMPLETED with spec_id "uuid-1", and the store satisfies the
    invariant. The background analysis then completes: it overwrites the
    stage with CLARIFYING and keeps the spec_id, and the store no longer
    satisfies the invariant. *)
Lemma late_analysis_breaks_invariant :
  store_ok early_message
  /\ (stage <$> conversations early_message !! "uuid-0") = Some COMPLETED
  /\ (stage <$> conversations analysed_late !! "uuid-0") = Some CLARIFYING
  /\ (spec_id <$> conversations analysed_late !! "uuid-0") = Some (Some "uuid-1")
  /\ ~ store_ok analysed_late.
Proof.
  split; [apply store_ok_early_message|]. repeat split; try reflexivity.
  intros Hstore.
  destruct (conversations analysed_late !! "uuid-0") as [c|] eqn:Hc; [|discriminate Hc].
  assert (stage c = CLARIFYING) as Hstage by (by injection Hc as <-).
  assert (is_Some (spec_id c)) as Hspec by (by injection Hc as <-).
  apply (Hstore "uuid-0" c Hc) in Hspec. congruence.
Qed.

(** C4, as the code has it. From a store that satisfies the invariant,
    [start_conversation] and every path of [send_message] lead to a
    store that satisfies it; every state they persist on the way
    satisfies it too, and every COMPLETED state they persist names a
    specification that is in the repository. [analyze_initial_prompt]
    does the same provided the conversation it loads is not COMPLETED. *)
Theorem stage_spec_invariant_preserved
    (deps : Collaborators) (analysis_engine : Engine)
    (conversation_id message current_user prompt : string)
    (name level : option string) (w : World) :
  store_ok w ->
  writes_ok w (snd (start_conversation prompt name level current_user w))
  /\ writes_ok w (snd (send_message deps conversation_id message current_user w))
  /\ ((forall c, conversations w !! conversation_id = Some c -> stage c <> COMPLETED) ->
      writes_ok w (snd (analyze_initial_prompt analysis_engine conversation_id prompt w))).
Proof.
  intros Hw. split; [|split].
  - by apply start_conversation_writes_ok.
  - by apply send_message_writes_ok.
  - intros Hstage. by apply analyze_initial_prompt_writes_ok.
Qed.

(** C4 on the conversation that has just been started: a second start,
    the early message, and the analysis completing in time. *)
Lemma stage_spec_invariant_preserved_witness :
  writes_ok (started "test_user")
    (snd (start_conversation photo_prompt None None "test_user" (started "test_user")))
  /\ writes_ok (started "test_user") early_message
  /\ writes_ok (started "test_user") (analysed result_two_questions).
Proof.
  destruct (stage_spec_invariant_preserved deps_ok (engine_returning result_two_questions)
              "uuid-0" "It also needs albums." "test_user" photo_prompt None None
              (started "test_user") (store_ok_started "test_user"))
    as (Hstart & Hsend & Hanalyse).
  split; [exact Hstart|]. split; [exact Hsend|].
  apply Hanalyse. intros c Hc. rewrite started_lookup in Hc.
  injection Hc as <-. discriminate.
Defined.

(** ** Writing spec_id *)

Lemma uuid_str_inj n n' : uuid_str n = uuid_str n' -> n = n'.
Proof.
  unfold uuid_str. intros Heq.
  apply (inj (String.app "uuid-")) in Heq. by apply (inj pretty) in Heq.
Qed.

(** C5, refuted: the early message attaches the specification "uuid-1"
    to the conversation; the analysis completes afterwards and reopens
    the conversation with two questions; answering them triggers the
    generation again, and the conversation now carries "uuid-2". Both
    specifications are in the repository. *)
Lemma second_generation_attaches_second_id :
  (spec_id <$> conversations early_message !! "uuid-0") = Some (Some "uuid-1")
  /\ (open_questions <$> conversations analysed_late !! "uuid-0")
     = Some ["Who may see a shared photo?"; "Which image formats must be supported?"]
  /\ (spec_id
        <$> conversations
              (snd (answer_each deps_ok "uuid-0" "test_user"
                      ["Friends only"; "JPEG and PNG"] analysed_late)) !! "uuid-0")
     = Some (Some "uuid-2")
  /\ (ps_id
        <$> specifications
              (snd (answer_each deps_ok "uuid-0" "test_user"
                      ["Friends only"; "JPEG and PNG"] analysed_late)) !! "uuid-1")
     = Some "uuid-1"
  /\ (ps_id
        <$> specifications
              (snd (answer_each deps_ok "uuid-0" "test_user"
                      ["Friends only"; "JPEG and PNG"] analysed_late)) !! "uuid-2")
     = Some "uuid-2".
Proof. repeat split; reflexivity. Qed.

(** C5, as the code has it. A request for a conversation that is
    already COMPLETED writes nothing: the world, and with it the
    spec_id, stays as it is. [generate_specification] itself has no
    such guard: called twice for the same conversation it succeeds
    twice, with two distinct ids, and both specifications end up in the
    repository. *)
Theorem completed_is_left_alone_generation_is_not_guarded
    (deps : Collaborators) (conversation_id message current_user : string) (w : World) :
  (forall c, conversations w !! conversation_id = Some c ->
     user_id c = current_user ->
     stage c = COMPLETED ->
     snd (send_message deps conversation_id message current_user w) = w)
  /\ (forall c enriched_data spec_content,
        enrich_conversation_data deps c = Return enriched_data ->
        spec_generator_generate_specification deps c enriched_data = Return spec_content ->
        let spec1 := new_specification c spec_content w in
        let w1 := store_specification spec1 (tick (next_uuid w)) in
        let spec2 := new_specification c spec_content w1 in
        let w2 := store_specification spec2 (tick (next_uuid w1)) in
        generate_specification deps c w = (Return spec1, w1)
        /\ generate_specification deps c w1 = (Return spec2, w2)
        /\ ps_id spec1 <> ps_id spec2
        /\ specifications w2 !! ps_id spec1 = Some spec1
        /\ specifications w2 !! ps_id spec2 = Some spec2).
Proof.
  split.
  - intros c Hc Hu Hstage.
    rewrite (send_message_owner_outcome _ _ _ _ _ c) by done.
    unfold try_except, process_message. rewrite Hstage.
    unfold bind, repository_get_specification, raise, ret.
    by destruct (match spec_id c with Some i => _ | None => None end).
  - intros c enriched_data spec_content Henrich Hgenerate spec1 w1 spec2 w2.
    assert (ps_id spec1 <> ps_id spec2) as Hne.
    { simpl. intros Heq. apply uuid_str_inj in Heq. lia. }
    split; [|split; [|split; [|split]]].
    + by rewrite generate_specification_run, Henrich, Hgenerate.
    + by rewrite generate_specification_run, Henrich, Hgenerate.
    + done.
    + unfold w2. simpl. rewrite lookup_insert_ne by done. apply lookup_insert_eq.
    + apply (lookup_insert_eq (M:=gmap string)).
Qed.

(** C5 on the conversation the early message has completed: the next
    message changes nothing, and generating for it again succeeds under
    a new id. *)
Lemma completed_is_left_alone_witness :
  snd (send_message deps_ok "uuid-0" "One more thing." "test_user" early_message)
  = early_message
  /\ (generate_specification deps_ok (conversation_started "test_user") early_message).1
     = Return (new_specification (conversation_started "test_user") "specification"
                 early_message).
Proof.
  destruct (completed_is_left_alone_generation_is_not_guarded deps_ok "uuid-0"
              "One more thing." "test_user" early_message) as [Hcompleted Hgenerate].
  split.
  - apply (Hcompleted conversation_completed); reflexivity.
  - destruct (Hgenerate (conversation_started "test_user") "domain knowledge"
                "specification" eq_refl eq_refl) as [Hfirst _].
    by rewrite Hfirst.
Defined.

(** ** The analysis completes *)

(** Whenever the analysis succeeds for a conversation that exists, the
    questions of the prioritized items are installed, in that order,
    and the stage is set to CLARIFYING, whether or not there is any
    question. *)
Lemma analyze_initial_prompt_installs_questions
    (analysis_engine : Engine) (conversation_id prompt : string) (w : World)
    (c : ConversationState) (r : AnalysisResult) :
  conversations w !! conversation_id = Some c ->
  fst (analyze_prompt analysis_engine prompt) = Return (Some r) ->
  analyze_initial_prompt analysis_engine conversation_id prompt w
  = (Return tt, store_conversation (with_analysis c r) w)
  /\ open_questions (with_analysis c r) = question <$> prioritize_missing_info r
  /\ stage (with_analysis c r) = CLARIFYING.
Proof.
  intros Hc Hr. rewrite analyze_initial_prompt_run, Hc, Hr. done.
Qed.

(** C2, at the input that shows the defect. The analysis of the started
    conversation succeeds and finds nothing missing. The empty question
    list is installed, but the conversation is stored in CLARIFYING, not
    in GENERATING, and no request gets it out of there: the next message
    fails on the empty queue. *)
Theorem analysis_without_questions_enters_clarifying :
  fst (analyze_prompt (engine_returning result_no_question) photo_prompt)
  = Return (Some result_no_question)
  /\ prioritize_missing_info result_no_question = []
  /\ (stage <$> conversations (started "test_user") !! "uuid-0") = Some COLLECTING
  /\ (open_questions <$> conversations (analysed result_no_question) !! "uuid-0") = Some []
  /\ (stage <$> conversations (analysed result_no_question) !! "uuid-0") = Some CLARIFYING
  /\ Forall (fun c => stage c <> GENERATING) (persisted (analysed result_no_question)).
Proof.
  repeat split; try reflexivity. repeat constructor; discriminate.
Qed.

(** With two missing items the same step installs both questions, the
    one of priority 5 first. *)
Example analysis_with_two_questions :
  (open_questions <$> conversations (analysed result_two_questions) !! "uuid-0")
  = Some ["Who may see a shared photo?"; "Which image formats must be supported?"]
  /\ (stage <$> conversations (analysed result_two_questions) !! "uuid-0")
     = Some CLARIFYING.
Proof. split; reflexivity. Qed.

(** ** Answering the questions *)

(** C6, at the input that shows the defect. The conversation is in
    CLARIFYING with an empty queue. Each answer sent to it is turned
    down with a 500; the world does not change, so the conversation is
    still in CLARIFYING afterwards and no GENERATING state is ever
    stored. *)
Theorem answering_an_empty_queue_never_reaches_generating :
  (open_questions <$> conversations (analysed result_no_question) !! "uuid-0") = Some []
  /\ answer_each deps_ok "uuid-0" "test_user" ["Nothing to add."; "Hello?"]
       (analysed result_no_question)
     = ([Raise (HTTPException HTTP_500_INTERNAL_SERVER_ERROR
                  "Failed to process message: list index out of range");
         Raise (HTTPException HTTP_500_INTERNAL_SERVER_ERROR
                  "Failed to process message: list index out of range")],
        analysed result_no_question)
  /\ (stage <$> conversations (analysed result_no_question) !! "uuid-0") = Some CLARIFYING.
Proof. repeat split; reflexivity. Qed.

(** Answering the two questions of the analysed conversation. *)
Lemma answer_each_reaches_generating_witness :
  let w := analysed result_two_questions in
  let c := with_analysis (conversation_started "test_user") result_two_questions in
  let answers := ["Friends only"; "JPEG and PNG"] in
  let final :=
    answered_all c (clock w)
      ["Who may see a shared photo?"; "Which image formats must be supported?"] answers in
  take 1 (fst (answer_each deps_ok "uuid-0" "test_user" answers w))
  = [Return (asks "uuid-0" "Which image formats must be supported?")]
  /\ set_stage final GENERATING ∈ persisted (snd (answer_each deps_ok "uuid-0" "test_user" answers w))
  /\ (conversations (snd (answer_each deps_ok "uuid-0" "test_user" answers w)) !! "uuid-0"
      = Some (set_stage final GENERATING)
      \/ exists spec,
           conversations (snd (answer_each deps_ok "uuid-0" "test_user" answers w)) !! "uuid-0"
           = Some (completed_with final spec)
           /\ specifications (snd (answer_each deps_ok "uuid-0" "test_user" answers w))
                !! ps_id spec = Some spec).
Proof.
  exact (answer_each_reaches_generating deps_ok "uuid-0" "test_user"
           ["Which image formats must be supported?"] "Who may see a shared photo?"
           ["JPEG and PNG"] "Friends only" (analysed result_two_questions)
           (with_analysis (conversation_started "test_user") result_two_questions)
           (analysed_lookup result_two_questions) eq_refl eq_refl eq_refl eq_refl eq_refl).
Defined.

(** Nothing is lost from a result whose categories are "functional",
    "constraints" and "security": the last two are not recognized and
    both end up in the UNKNOWN bucket. *)
Lemma extract_requirements_by_type_keeps_all_witness :
  extract_requirements_by_type result_three_categories !! FUNCTIONAL
  = Some ["Upload photos"; "Share albums"]
  /\ exists bucket,
       extract_requirements_by_type result_three_categories !! UNKNOWN = Some bucket
       /\ ["Encrypt uploads"] ⊆ bucket.
Proof.
  assert (NoDup (requirements result_three_categories).*1) as Hnodup.
  { simpl. repeat constructor; rewrite ?elem_of_cons, ?elem_of_nil; intros Hin;
      repeat destruct Hin as [Hin|Hin]; discriminate || done. }
  assert ("unknown" ∉ (requirements result_three_categories).*1) as Hunknown.
  { simpl. rewrite !elem_of_cons, elem_of_nil. intros Hin.
    repeat destruct Hin as [Hin|Hin]; discriminate || done. }
  split.
  - apply (extract_requirements_by_type_keeps_all result_three_categories Hnodup Hunknown
             "functional" ["Upload photos"; "Share albums"]).
    apply list_elem_of_here.
  - apply (extract_requirements_by_type_keeps_all result_three_categories Hnodup Hunknown
             "security" ["Encrypt uploads"]).
    do 2 apply list_elem_of_further. apply list_elem_of_here.
Defined.

(** The analysis of the started conversation with two missing items. *)
Lemma analyze_initial_prompt_installs_questions_witness :
  analyze_initial_prompt (engine_returning result_two_questions) "uuid-0" photo_prompt
    (started "test_user")
  = (Return tt,
     store_conversation
       (with_analysis (conversation_started "test_user") result_two_questions)
       (started "test_user"))
  /\ open_questions (with_analysis (conversation_started "test_user") result_two_questions)
     = question <$> prioritize_missing_info result_two_questions
  /\ stage (with_analysis (conversation_started "test_user") result_two_questions)
     = CLARIFYING.
Proof.
  exact (analyze_initial_prompt_installs_questions (engine_returning result_two_questions)
           "uuid-0" photo_prompt (started "test_user") (conversation_started "test_user")
           result_two_questions (started_lookup "test_user") eq_refl).
Defined.

(** * More of the engine *)

Lemma foldl_translation_step min_confidence name terms : forall translations,
  foldl (translation_step min_confidence) translations terms !! name
  = match last (filter (translates min_confidence name) terms) with
    | Some term => Some (technical_equivalent term)
    | None => translations !! name
    end.
Proof.
  induction terms as [|term terms IH]; intros translations; simpl; [done|].
  rewrite IH, filter_cons. unfold translation_step.
  destruct (decide (translates min_confidence name term)) as [[Hname Hconf]|Hno].
  - rewrite Hconf, last_cons.
    destruct (last (filter _ terms)); [done|]. rewrite <- Hname. apply lookup_insert_eq.
  - destruct (last (filter _ terms)); [done|].
    destruct (Qle_bool min_confidence (term_confidence term)) eqn:Hconf; [|done].
    rewrite lookup_insert_ne; [done|]. intros Hname. by apply Hno.
Qed.

(** X4. A name is a key of the translations exactly when some term of
    that name has a confidence of at least [min_confidence] (the bound
    included), and its value is the technical equivalent of the last
    such term of the input: terms below the threshold count for
    nothing, and of several qualifying terms the later one wins. *)
Theorem get_technical_translations_last_qualifying
    (result : AnalysisResult) (min_confidence : Q) (name : string) :
  get_technical_translations result min_confidence !! name
  = technical_equivalent
      <$> last (filter (translates min_confidence name) (technical_terms result)).
Proof.
  unfold get_technical_translations. rewrite foldl_translation_step.
  by destruct (last _).
Qed.

Lemma lstrip_empty s : lstrip s = EmptyString <-> all_space s = true.
Proof.
  induction s as [|c s IH]; simpl; [done|].
  destruct (isspace c); simpl; [done|]. split; intros; done.
Qed.

Lemma lstrip_head c s s' : lstrip s = String c s' -> isspace c = false.
Proof.
  induction s as [|c0 s IH]; simpl; [done|].
  destruct (isspace c0) eqn:Hc0; [done|]. intros Heq. by simplify_eq.
Qed.

Lemma all_space_rev_app s : forall acc,
  all_space (String.rev_app s acc) = all_space s && all_space acc.
Proof.
  induction s as [|c s IH]; intros acc; simpl; [done|].
  rewrite IH. simpl. rewrite andb_assoc. f_equal. apply andb_comm.
Qed.

Lemma rev_app_empty s : forall acc, String.rev_app s acc = EmptyString -> s = EmptyString.
Proof.
  induction s as [|c s IH]; intros acc; simpl; [done|].
  intros Heq. pose proof (IH _ Heq) as Hs. rewrite Hs in Heq. discriminate Heq.
Qed.

Lemma strip_empty s : strip s = EmptyString <-> all_space s = true.
Proof.
  unfold strip, rstrip, String.rev. split.
  - intros Heq%rev_app_empty%lstrip_empty.
    rewrite all_space_rev_app, andb_true_r in Heq.
    destruct (lstrip s) as [|c s'] eqn:Hstrip; [by apply lstrip_empty|].
    apply lstrip_head in Hstrip. simpl in Heq. by rewrite Hstrip in Heq.
  - intros Hs%lstrip_empty. by rewrite Hs.
Qed.

Lemma for_attempt_calls self user_prompt attempts : forall errors calls,
  (calls <= snd (for_attempt self user_prompt attempts errors calls)
            <= calls + length attempts)%nat
  /\ (attempts <> [] ->
      (calls < snd (for_attempt self user_prompt attempts errors calls))%nat).
Proof.
  induction attempts as [|attempt attempts IH]; intros errors calls; simpl; [split; [lia|done]|].
  destruct (attempt_body self user_prompt attempt); simpl; [split; [lia|intros; lia]|].
  destruct (attempt =? max_retries self); simpl; [split; [lia|intros; lia]|].
  destruct (IH (errors ++ [error_msg attempt e]) (S calls)) as [Hbound _].
  split; [lia|intros; lia].
Qed.

(** X5. [analyze_prompt] raises "Empty prompt provided" without a
    single call of the chain exactly for the prompts that consist of
    whitespace only, the empty prompt among them, whatever the engine
    and its budget. *)
Theorem analyze_prompt_rejects_exactly_blank (self : Engine) (user_prompt : string) :
  analyze_prompt self user_prompt = (Raise (ValueError "Empty prompt provided"), 0%nat)
  <-> all_space user_prompt = true.
Proof.
  rewrite <- strip_empty. unfold analyze_prompt. split.
  - destruct (strip user_prompt) as [|c s] eqn:Hstrip; [done|]. simpl.
    intros Hrun. exfalso.
    destruct (range (max_retries self + 1)) as [|attempt attempts] eqn:Hrange.
    + simpl in Hrun. discriminate.
    + destruct (for_attempt_calls self user_prompt (attempt :: attempts) [] 0%nat)
        as [_ Hpos].
      rewrite Hrun in Hpos. simpl in Hpos. specialize (Hpos ltac:(done)). lia.
  - by intros ->.
Qed.

(** X6. Whatever the backend and the parsers do, [analyze_prompt]
    calls the chain at most [max_retries + 1] times, and not at all
    when that number is not positive. *)
Theorem analyze_prompt_call_budget (self : Engine) (user_prompt : string) :
  (snd (analyze_prompt self user_prompt) <= Z.to_nat (max_retries self + 1))%nat.
Proof.
  unfold analyze_prompt, range.
  destruct (negb _); simpl; [lia|].
  destruct (for_attempt_calls self user_prompt (seqZ 0 (max_retries self + 1)) [] 0%nat)
    as [Hbound _].
  rewrite length_seqZ in Hbound. lia.
Qed.

(** X7. [analyze_prompt] hands back [None] exactly when the prompt is
    not blank and the budget [max_retries] is negative: the loop body
    then never runs and [result] is returned as initialized. *)
Theorem analyze_prompt_none_iff_negative_budget (self : Engine) (user_prompt : string) :
  fst (analyze_prompt self user_prompt) = Return None
  <-> all_space user_prompt = false /\ max_retries self < 0.
Proof.
  split.
  - intros Hnone.
    destruct (all_space user_prompt) eqn:Hblank.
    { apply strip_empty in Hblank. rewrite analyze_prompt_empty in Hnone by done.
      discriminate. }
    split; [done|].
    destruct (Z.lt_ge_cases (max_retries self) 0) as [|Hbudget]; [done|]. exfalso.
    revert Hnone. unfold analyze_prompt, range.
    destruct (strip user_prompt) eqn:Hstrip.
    { apply strip_empty in Hstrip. congruence. }
    simpl.
    destruct (for_attempt_spec self user_prompt (Z.to_nat (max_retries self + 1)) 0 [] 0%nat)
      as [(j & r & _ & _ & _ & Hrun)|(es & _ & _ & Hrun)]; [lia|lia| |];
      rewrite Z2Nat.id in Hrun by lia; rewrite Hrun; discriminate.
  - intros [Hblank Hbudget].
    rewrite analyze_prompt_no_attempt; [done|done|].
    intros Hstrip%strip_empty. congruence.
Qed.


Section SortedAgain.
Context {A : Type} (key : A -> Z).

Lemma insert_by_key_front x l :
  HdRel (key_le key) x l -> insert_by_key key x l = x :: l.
Proof.
  intros Hhd. destruct l as [|y l]; simpl; [done|].
  inversion Hhd as [|? ? Hxy]; subst. unfold key_le in Hxy.
  by rewrite (proj2 (Z.leb_le _ _) Hxy).
Qed.

Lemma sort_by_key_sorted_id l : Sorted (key_le key) l -> sort_by_key key l = l.
Proof.
  induction 1 as [|x l Hl IH Hhd]; simpl; [done|].
  rewrite IH. by apply insert_by_key_front.
Qed.

Lemma sorted_reverse_id l :
  Sorted (flip (key_le key)) l -> sorted key l true = l.
Proof.
  intros Hl. simpl. rewrite sort_by_key_sorted_id.
  - apply reverse_involutive.
  - apply (Sorted_reverse (flip (key_le key))) in Hl. exact Hl.
Qed.
End SortedAgain.

(** X9. The order [prioritize_missing_info] returns is a fixed point
    of the sort: sorting the returned list again by descending
    priority gives the same list. *)
Theorem prioritize_missing_info_idempotent (result : AnalysisResult) :
  sorted priority (prioritize_missing_info result) true = prioritize_missing_info result.
Proof.
  apply sorted_reverse_id. unfold prioritize_missing_info. simpl.
  apply Sorted_reverse, sort_by_key_sorted.
Qed.

Lemma foldl_bucket_step_unknown items : forall m bucket,
  m !! UNKNOWN = Some bucket ->
  "unknown" ∉ items.*1 ->
  foldl bucket_step m items !! UNKNOWN = Some (bucket ++ unrecognized_requirements items).
Proof.
  unfold unrecognized_requirements.
  induction items as [|[label reqs] items IH]; intros m bucket Hm Hnot; simpl.
  - by rewrite app_nil_r.
  - assert (label <> "unknown" /\ "unknown" ∉ items.*1) as [Hlabel Hitems].
    { simpl in Hnot. apply not_elem_of_cons in Hnot. destruct Hnot as [Hne Hrest]. split; [congruence|done]. }
    rewrite filter_cons.
    destruct (decide (unrecognized (label, reqs))) as [Hun|Hrec]; simpl in *.
    + destruct (RequirementType_of_value label) as [t|e] eqn:Ht.
      { by destruct (Hun t). }
      rewrite Hm. simpl. rewrite (IH _ (bucket ++ reqs)); [|apply lookup_insert_eq|done].
      by rewrite <- app_assoc.
    + destruct (RequirementType_of_value label) as [t|e] eqn:Ht.
      * apply IH; [|done]. rewrite lookup_insert_ne; [done|].
        intros ->. by apply Hlabel, RequirementType_of_value_unknown.
      * exfalso. apply Hrec. intros t. simpl. rewrite Ht. discriminate.
Qed.

Lemma foldl_bucket_step_some items : forall m,
  is_Some (m !! UNKNOWN) -> is_Some (foldl bucket_step m items !! UNKNOWN).
Proof.
  induction items as [|[label reqs] items IH]; intros m Hm; simpl; [done|].
  apply IH. destruct (RequirementType_of_value label) as [t|e].
  - destruct (decide (t = UNKNOWN)) as [->|Hne].
    + rewrite lookup_insert_eq. eauto.
    + by rewrite lookup_insert_ne.
  - rewrite lookup_insert_eq. eauto.
Qed.

(** X11. The UNKNOWN bucket, exactly. If no category is labelled
    "unknown", it is the concatenation, in input order, of the
    requirements under the labels that are not recognized. If the label
    "unknown" occurs, it is the requirements listed under that label
    followed by those of the unrecognized labels that come after it:
    what unrecognized labels before it had contributed is gone. *)
Theorem unknown_bucket_contents (result : AnalysisResult) :
  ("unknown" ∉ (requirements result).*1 ->
   extract_requirements_by_type result !! UNKNOWN
   = Some (unrecognized_requirements (requirements result)))
  /\ (forall before reqs after,
        requirements result = before ++ ("unknown", reqs) :: after ->
        "unknown" ∉ after.*1 ->
        extract_requirements_by_type result !! UNKNOWN
        = Some (reqs ++ unrecognized_requirements after)).
Proof.
  unfold extract_requirements_by_type. split.
  - intros Hnot. by rewrite (foldl_bucket_step_unknown _ _ []).
  - intros before reqs after -> Hnot. rewrite foldl_app. simpl.
    apply foldl_bucket_step_unknown; [|done]. apply lookup_insert_eq.
Qed.

(** X10. Whatever the labels of the input, the mapping
    [extract_requirements_by_type] returns has the four members of
    [RequirementType] as its keys and no other; for an input without
    requirements all four buckets are empty. *)
Theorem extract_requirements_by_type_four_buckets (result : AnalysisResult) :
  dom (extract_requirements_by_type result) = canonical_types
  /\ (requirements result = [] ->
      forall t, extract_requirements_by_type result !! t = Some []).
Proof.
  split.
  - apply foldl_bucket_step_dom. unfold typed_requirements_init.
    rewrite !dom_insert_L, dom_empty_L. unfold canonical_types. set_solver.
  - unfold extract_requirements_by_type. intros -> t. by destruct t.
Qed.

(** * More of the API *)

Lemma completes_try deps cid c reply w :
  completes cid reply c w
    (fst (try_except (generate_and_complete deps cid c reply)
            (fun e => raise (HTTPException HTTP_500_INTERNAL_SERVER_ERROR
                               ("Failed to process message: " +:+ str e))) w))
    (snd (try_except (generate_and_complete deps cid c reply)
            (fun e => raise (HTTPException HTTP_500_INTERNAL_SERVER_ERROR
                               ("Failed to process message: " +:+ str e))) w)).
Proof.
  destruct (try_generate_and_complete deps cid c reply w) as [[detail ->]|[content ->]].
  - left. by exists detail.
  - right. by exists content.
Qed.

Lemma process_message_clarifying_refetch deps cid msg c w q qs c' :
  conversations w !! cid = Some c ->
  stage c = CLARIFYING ->
  open_questions c = q :: qs ->
  let w1 := store_conversation (with_answer c q msg (clock w)) (tick w) in
  conversations w1 !! cid = Some c' ->
  process_message deps cid msg c w
  = match open_questions c' with
    | q' :: _ =>
        (Return {| r_conversation_id := cid; r_message := q';
                   r_stage := stage c'; r_awaiting_user := true;
                   r_spec_ready := false; r_spec_id := None |}, w1)
    | [] => generate_and_complete deps cid c' reply_after_clarifying w1
    end.
Proof.
  intros Hc Hstage Hq w1 Hc'. unfold process_message. rewrite Hstage, Hq. simpl.
  unfold bind at 1. unfold ret at 1.
  unfold bind at 1. rewrite (answer_question_run _ _ _ _ c) by done. fold w1.
  unfold bind at 1, get_conversation. rewrite Hc'.
  by destruct (open_questions c').
Qed.

Lemma send_message_cases deps cid msg user w :
  send_message_behaviour cid msg user w
    (fst (send_message deps cid msg user w)) (snd (send_message deps cid msg user w)).
Proof.
  unfold send_message_behaviour.
  destruct (conversations w !! cid) as [c|] eqn:Hc.
  2:{ unfold send_message, bind, get_conversation. by rewrite Hc. }
  destruct (decide (user_id c = user)) as [Hu|Hu].
  2:{ unfold send_message, bind, get_conversation. rewrite Hc.
      by rewrite bool_decide_true. }
  rewrite (send_message_owner_outcome _ _ _ _ _ c) by done.
  destruct (stage c) eqn:Hstage.
  - pose proof (completes_try deps cid c reply_after_collecting
                  (store_conversation (with_user_message c msg (clock w)) (tick w))) as Hdone.
    unfold try_except in *. rewrite process_message_collecting by done.
    by destruct (open_questions c).
  - destruct (open_questions c) as [|q qs] eqn:Hq.
    { unfold try_except, process_message. by rewrite Hstage, Hq. }
    simpl.
    set (c1 := with_answer c q msg (clock w)).
    set (w1 := store_conversation c1 (tick w)).
    assert (exists c', conversations w1 !! cid = Some c' /\ (c' = c1 \/ c' = c)) as (c' & Hc' & Hor).
    { unfold w1. simpl. rewrite lookup_insert. case_decide; eauto. }
    exists c'. split; [done|]. split; [done|].
    assert (stage c' = CLARIFYING) as Hstage'.
    { by destruct Hor as [-> | ->]. }
    pose proof (completes_try deps cid c' reply_after_clarifying w1) as Hdone.
    unfold try_except in *.
    rewrite (process_message_clarifying_refetch deps cid msg c w q qs c') by done.
    fold c1 w1. destruct (open_questions c') as [|q' qs'] eqn:Hq'; [exact Hdone|].
    simpl. by rewrite Hstage'.
  - unfold try_except, process_message. by rewrite Hstage.
  - unfold try_except, process_message. rewrite Hstage.
    unfold bind, repository_get_specification, raise, ret.
    destruct (spec_id c) as [sid|]; [|done].
    by destruct (specifications w !! sid).
Qed.



Lemma completes_raise cid reply c w1 e w' :
  completes cid reply c w1 (Raise e) w' ->
  (exists detail, e = HTTPException HTTP_500_INTERNAL_SERVER_ERROR detail)
  /\ w' = store_conversation (set_stage c GENERATING) w1.
Proof.
  intros [(detail & Hr & Hw)|(content & Hr & Hw)]; [|discriminate Hr].
  injection Hr as ->. eauto.
Qed.

Lemma completes_return cid reply c w1 resp w' :
  completes cid reply c w1 (Return resp) w' ->
  exists spec_content,
    let g := set_stage c GENERATING in
    let w2 := store_conversation g w1 in
    let spec := new_specification g spec_content w2 in
    resp = completed_reply cid reply spec
    /\ w' = store_conversation (completed_with c spec)
              (store_specification spec (tick (next_uuid w2))).
Proof.
  intros [(detail & Hr & Hw)|(content & Hr & Hw)]; [discriminate Hr|].
  injection Hr as ->. by exists content.
Qed.

(** X12. Once the lookup of line 316, which is outside the [try], has
    returned (the store's [get] answers found or not found), every
    exception that leaves [send_message] is an [HTTPException] with
    status 403, 404 or 500, and is therefore rendered by the handler for
    HTTP exceptions, never by the general one. The two HTTP exceptions
    raised inside the [try] do not reach the caller as such: for a
    conversation of the caller in GENERATING the body raises the 400
    for an unexpected stage, and for one in COMPLETED whose
    specification is missing it raises the 404; each is caught by
    [except Exception] and leaves the handler as a 500 whose detail is
    the prefix of line 462 followed by [str] of the caught exception,
    with nothing changed. *)
Theorem send_message_errors_are_403_404_500
    (deps : Collaborators) (conversation_id message current_user : string) (w : World)
    (found : option ConversationState) :
  fst (get_conversation conversation_id w) = Return found ->
  match fst (send_message deps conversation_id message current_user w) with
  | Return _ => True
  | Raise e =>
      exists status_code detail,
        e = HTTPException status_code detail
        /\ (status_code = HTTP_403_FORBIDDEN \/ status_code = HTTP_404_NOT_FOUND
            \/ status_code = HTTP_500_INTERNAL_SERVER_ERROR)
        /\ handle_exception e = http_exception_handler status_code detail
  end
  /\ (forall c inner,
        found = Some c ->
        user_id c = current_user ->
        stage c = GENERATING
        /\ inner = HTTPException HTTP_400_BAD_REQUEST
                     "Invalid conversation stage: ConversationStage.GENERATING"
        \/ stage c = COMPLETED
           /\ (forall sid, spec_id c = Some sid -> specifications w !! sid = None)
           /\ inner = HTTPException HTTP_404_NOT_FOUND "Specification not found" ->
        process_message deps conversation_id message c w = (Raise inner, w)
        /\ send_message deps conversation_id message current_user w
           = (Raise (HTTPException HTTP_500_INTERNAL_SERVER_ERROR
                       ("Failed to process message: " +:+ str inner)), w)).
Proof.
  intros Hfound. split.
  - pose proof (send_message_cases deps conversation_id message current_user w) as Hcases.
    unfold send_message_behaviour in Hcases.
    destruct (fst (send_message deps conversation_id message current_user w)) as [resp|e];
      [done|].
    assert (forall reply c w1 w',
              completes conversation_id reply c w1 (Raise e) w' ->
              exists status_code detail,
                e = HTTPException status_code detail
                /\ (status_code = HTTP_403_FORBIDDEN \/ status_code = HTTP_404_NOT_FOUND
                    \/ status_code = HTTP_500_INTERNAL_SERVER_ERROR)
                /\ handle_exception e = http_exception_handler status_code detail) as Hdone.
    { intros reply c w1 w' [[detail ->] _]%completes_raise. eauto 10. }
    destruct (conversations w !! conversation_id) as [c|].
    2:{ destruct Hcases as [Hr _]. injection Hr as ->. eauto 10. }
    destruct (decide (user_id c = current_user)).
    2:{ destruct Hcases as [Hr _]. injection Hr as ->. eauto 10. }
    destruct (stage c).
    + destruct (open_questions c); [by eapply Hdone|]. by destruct Hcases.
    + destruct (open_questions c).
      { destruct Hcases as [Hr _]. injection Hr as ->. eauto 10. }
      destruct Hcases as (c' & _ & _ & Hcases).
      destruct (open_questions c'); [by eapply Hdone|]. by destruct Hcases.
    + destruct Hcases as [Hr _]. injection Hr as ->. eauto 10.
    + destruct Hcases as [_ Hr]. destruct (spec_id c) as [sid|].
      * destruct (specifications w !! sid); [done|]. injection Hr as ->. eauto 10.
      * injection Hr as ->. eauto 10.
  - intros c inner -> Hu Hinner.
    assert (conversations w !! conversation_id = Some c) as Hc.
    { unfold get_conversation in Hfound. simpl in Hfound. congruence. }
    assert (process_message deps conversation_id message c w = (Raise inner, w)) as Hbody.
    { unfold process_message.
      destruct Hinner as [[Hstage ->]|(Hstage & Hmissing & ->)]; rewrite Hstage; [done|].
      unfold bind, repository_get_specification, raise.
      destruct (spec_id c) as [sid|]; [|done].
      by rewrite (Hmissing sid). }
    split; [done|].
    rewrite (send_message_owner_outcome _ _ _ _ _ c) by done.
    unfold try_except. by rewrite Hbody.
Qed.

(** X13. Every reply of [send_message] echoes the conversation id and
    is in stage CLARIFYING or COMPLETED; it is in COMPLETED exactly
    when [spec_ready] is set and exactly when it carries a [spec_id],
    and it awaits the user exactly when it is not. *)
Theorem send_message_reply_consistent
    (deps : Collaborators) (conversation_id message current_user : string) (w : World) :
  match fst (send_message deps conversation_id message current_user w) with
  | Raise _ => True
  | Return response =>
      r_conversation_id response = conversation_id
      /\ (r_stage response = CLARIFYING \/ r_stage response = COMPLETED)
      /\ (r_stage response = COMPLETED <-> r_spec_ready response = true)
      /\ (r_stage response = COMPLETED <-> is_Some (r_spec_id response))
      /\ r_awaiting_user response = negb (r_spec_ready response)
  end.
Proof.
  pose proof (send_message_cases deps conversation_id message current_user w) as Hcases.
  unfold send_message_behaviour in Hcases.
  destruct (fst (send_message deps conversation_id message current_user w)) as [resp|e];
    [|done].
  assert (forall reply c w1 w',
            completes conversation_id reply c w1 (Return resp) w' ->
            r_conversation_id resp = conversation_id
            /\ (r_stage resp = CLARIFYING \/ r_stage resp = COMPLETED)
            /\ (r_stage resp = COMPLETED <-> r_spec_ready resp = true)
            /\ (r_stage resp = COMPLETED <-> is_Some (r_spec_id resp))
            /\ r_awaiting_user resp = negb (r_spec_ready resp)) as Hdone.
  { intros reply c w1 w' (content & -> & _)%completes_return. simpl.
    repeat split; eauto. }
  assert (forall q, resp = asks conversation_id q ->
            r_conversation_id resp = conversation_id
            /\ (r_stage resp = CLARIFYING \/ r_stage resp = COMPLETED)
            /\ (r_stage resp = COMPLETED <-> r_spec_ready resp = true)
            /\ (r_stage resp = COMPLETED <-> is_Some (r_spec_id resp))
            /\ r_awaiting_user resp = negb (r_spec_ready resp)) as Hasks.
  { intros q ->. simpl. repeat split; eauto; try discriminate.
    intros [? ?]; discriminate. }
  destruct (conversations w !! conversation_id) as [c|]; [|by destruct Hcases].
  destruct (decide (user_id c = current_user)); [|by destruct Hcases].
  destruct (stage c).
  - destruct (open_questions c) as [|q qs]; [by eapply Hdone|].
    destruct Hcases as [Hr _]. injection Hr as Hr. by apply (Hasks q).
  - destruct (open_questions c); [by destruct Hcases|].
    destruct Hcases as (c' & _ & _ & Hcases).
    destruct (open_questions c') as [|q' qs']; [by eapply Hdone|].
    destruct Hcases as [Hr _]. injection Hr as Hr. by apply (Hasks q').
  - by destruct Hcases.
  - destruct Hcases as [_ Hr]. destruct (spec_id c) as [sid|]; [|done].
    destruct (specifications w !! sid); [|done]. injection Hr as ->. simpl.
    repeat split; eauto.
Qed.

Lemma completes_elsewhere cid reply c w1 r w' k sid :
  completes cid reply c w1 r w' ->
  (conv_id c <> k -> conversations w' !! k = conversations w1 !! k)
  /\ (sid <> uuid_str (uuid_supply w1) ->
      specifications w' !! sid = specifications w1 !! sid).
Proof.
  intros [(detail & _ & ->)|(content & _ & ->)]; simpl.
  - split; [|done]. intros Hk. by rewrite lookup_insert_ne.
  - split.
    + intros Hk. by rewrite !lookup_insert_ne.
    + intros Hsid. by rewrite lookup_insert_ne.
Qed.

(** X14. A request to [send_message] changes no conversation other
    than the one it found under the id, and no specification other
    than the one it may store under the next fresh id. *)
Theorem send_message_touches_one_conversation
    (deps : Collaborators) (conversation_id message current_user : string) (w : World) :
  (forall k,
     (forall c, conversations w !! conversation_id = Some c -> conv_id c <> k) ->
     conversations (snd (send_message deps conversation_id message current_user w)) !! k
     = conversations w !! k)
  /\ (forall sid,
        sid <> uuid_str (uuid_supply w) ->
        specifications (snd (send_message deps conversation_id message current_user w)) !! sid
        = specifications w !! sid).
Proof.
  pose proof (send_message_cases deps conversation_id message current_user w) as Hcases.
  unfold send_message_behaviour in Hcases.
  set (r := fst (send_message deps conversation_id message current_user w)) in *.
  set (w' := snd (send_message deps conversation_id message current_user w)) in *.
  clearbody r w'.
  destruct (conversations w !! conversation_id) as [c|] eqn:Hc.
  2:{ destruct Hcases as [_ ->]. done. }
  destruct (decide (user_id c = current_user)).
  2:{ destruct Hcases as [_ ->]. done. }
  assert (forall k, (forall c0, Some c = Some c0 -> conv_id c0 <> k) -> conv_id c <> k)
    as Hkey by (intros k Hk; by apply Hk).
  destruct (stage c).
  - destruct (open_questions c) as [|q qs].
    + split.
      * intros k Hk%Hkey.
        destruct (completes_elsewhere _ _ _ _ _ _ k "" Hcases) as [Heq _].
        rewrite Heq by done. simpl. by rewrite lookup_insert_ne.
      * intros sid Hsid.
        by destruct (completes_elsewhere _ _ _ _ _ _ "" sid Hcases) as [_ ->].
    + destruct Hcases as [_ ->]. simpl. split; [|done].
      intros k Hk%Hkey. by rewrite !lookup_insert_ne.
  - destruct (open_questions c) as [|q qs].
    { destruct Hcases as [_ ->]. done. }
    destruct Hcases as (c' & _ & Hor & Hcases).
    assert (conv_id c' = conv_id c) as Hid by (by destruct Hor as [-> | ->]).
    destruct (open_questions c') as [|q' qs'].
    + split.
      * intros k Hk%Hkey.
        destruct (completes_elsewhere _ _ _ _ _ _ k "" Hcases) as [Heq _].
        rewrite Heq by congruence. simpl. by rewrite lookup_insert_ne.
      * intros sid Hsid.
        by destruct (completes_elsewhere _ _ _ _ _ _ "" sid Hcases) as [_ ->].
    + destruct Hcases as [_ ->]. simpl. split; [|done].
      intros k Hk%Hkey. by rewrite lookup_insert_ne.
  - destruct Hcases as [_ ->]. done.
  - destruct Hcases as [-> _]. done.
Qed.

Lemma answer_each_generating deps cid user w c messages :
  conversations w !! cid = Some c ->
  user_id c = user ->
  stage c = GENERATING ->
  answer_each deps cid user messages w
  = (replicate (length messages) refused_in_generating, w).
Proof.
  intros Hc Hu Hstage. induction messages as [|msg messages IH]; simpl; [done|].
  pose proof (send_message_cases deps cid msg user w) as Hcases.
  unfold send_message_behaviour in Hcases. rewrite Hc, decide_True, Hstage in Hcases by done.
  destruct (send_message deps cid msg user w) as [r w']. simpl in Hcases.
  destruct Hcases as [-> ->]. by rewrite IH.
Qed.

(** X15. When the request that should generate the specification
    (a message in COLLECTING with no open question, or the answer to
    the last question) fails, the conversation is left stored in
    GENERATING with an empty queue, no specification is stored, and
    from then on every message, whatever the collaborators do by then,
    is turned down with a 500 and changes nothing. *)
Theorem failed_generation_is_a_dead_end
    (deps : Collaborators) (conversation_id message current_user : string)
    (w : World) (c : ConversationState) (e : exn) :
  conversations w !! conversation_id = Some c ->
  conv_id c = conversation_id ->
  user_id c = current_user ->
  (stage c = COLLECTING /\ open_questions c = []
   \/ stage c = CLARIFYING /\ exists q, open_questions c = [q]) ->
  fst (send_message deps conversation_id message current_user w) = Raise e ->
  let w' := snd (send_message deps conversation_id message current_user w) in
  (exists g,
     conversations w' !! conversation_id = Some g
     /\ stage g = GENERATING /\ open_questions g = [] /\ spec_id g = spec_id c)
  /\ specifications w' = specifications w
  /\ forall deps' messages,
       answer_each deps' conversation_id current_user messages w'
       = (replicate (length messages) refused_in_generating, w').
Proof.
  intros Hc Hid Hu Hpath Hr w'.
  pose proof (send_message_cases deps conversation_id message current_user w) as Hcases.
  unfold send_message_behaviour in Hcases.
  rewrite Hc, decide_True, Hr in Hcases by done. fold w' in Hcases.
  assert (exists g,
            conversations w' !! conversation_id = Some g
            /\ stage g = GENERATING /\ open_questions g = [] /\ spec_id g = spec_id c
            /\ user_id g = current_user
            /\ specifications w' = specifications w) as (g & Hg & Hstage & Hq & Hs & Hug & Hspecs).
  { destruct Hpath as [[Hstage Hq]|[Hstage [q Hq]]]; rewrite Hstage, Hq in Hcases.
    - apply completes_raise in Hcases as [_ ->].
      exists (set_stage c GENERATING). simpl. by rewrite Hid, lookup_insert_eq.
    - destruct Hcases as (c' & Hc' & _ & Hcases). revert Hc'. simpl.
      rewrite Hid, lookup_insert_eq. intros [= <-].
      simpl in Hcases. rewrite Hq in Hcases. simpl in Hcases.
      apply completes_raise in Hcases as [_ ->].
      eexists. simpl. rewrite Hid, lookup_insert_eq. split; [done|].
      simpl. by rewrite Hq. }
  split; [by exists g|]. split; [done|].
  intros deps' messages. by apply (answer_each_generating _ _ _ _ g).
Qed.

(** X16. When a request takes a conversation to COMPLETED, the reply
    carries the id of a specification that is new, has version 1,
    belongs to the caller and is named after the conversation's project
    name (or its default); from then on [get_specification] hands that
    specification to the caller, and every further message is answered
    with the same [spec_id], neither changing anything. *)
Theorem completed_conversation_serves_its_specification
    (deps : Collaborators) (conversation_id message current_user : string)
    (w : World) (c : ConversationState) (response : ConversationResponse) :
  conversations w !! conversation_id = Some c ->
  conv_id c = conversation_id ->
  user_id c = current_user ->
  stage c <> COMPLETED ->
  fst (send_message deps conversation_id message current_user w) = Return response ->
  r_stage response = COMPLETED ->
  let w' := snd (send_message deps conversation_id message current_user w) in
  exists spec,
    r_spec_id response = Some (ps_id spec)
    /\ ps_id spec = uuid_str (uuid_supply w)
    /\ ps_version spec = 1%Z
    /\ ps_user_id spec = current_user
    /\ ps_project_name spec = project_name_or_default (project_name c)
    /\ get_specification (ps_id spec) current_user w'
       = (Return {| sr_spec_id := ps_id spec; sr_project_name := ps_project_name spec;
                    sr_content := ps_content spec; sr_created_at := ps_created_at spec;
                    sr_version := 1 |}, w')
    /\ forall deps' message',
         send_message deps' conversation_id message' current_user w'
         = (Return {| r_conversation_id := conversation_id;
                      r_message := "Your project '" +:+ ps_project_name spec
                        +:+ "' specification is complete. You can view the full details using the spec_id.";
                      r_stage := COMPLETED; r_awaiting_user := false;
                      r_spec_ready := true; r_spec_id := Some (ps_id spec) |}, w').
Proof.
  intros Hc Hid Hu Hnot Hr Hstage w'.
  pose proof (send_message_cases deps conversation_id message current_user w) as Hcases.
  unfold send_message_behaviour in Hcases.
  rewrite Hc, decide_True, Hr in Hcases by done. fold w' in Hcases.
  assert (exists c0 w1,
            completes conversation_id
              (r_message response) c0 w1 (Return response) w'
            /\ conv_id c0 = conversation_id /\ user_id c0 = current_user
            /\ project_name c0 = project_name c
            /\ uuid_supply w1 = uuid_supply w) as (c0 & w1 & Hdone & Hid0 & Hu0 & Hname & Hsupply).
  { destruct (stage c) eqn:Hstage_c; [| |by destruct Hcases|done].
    - destruct (open_questions c) as [|q qs].
      + pose proof Hcases as (content & -> & _)%completes_return. simpl. eauto 10.
      + destruct Hcases as [[= ->] _]. discriminate Hstage.
    - destruct (open_questions c) as [|q qs] eqn:Hq; [by destruct Hcases|].
      destruct Hcases as (c' & Hc' & Hor & Hcases).
      destruct (open_questions c') as [|q' qs'].
      + pose proof Hcases as (content & -> & _)%completes_return. simpl.
        exists c', (store_conversation (with_answer c q message (clock w)) (tick w)).
        split; [done|]. by destruct Hor as [-> | ->].
      + destruct Hcases as [[= ->] _]. discriminate Hstage. }
  apply completes_return in Hdone as (content & Hresp & Hw').
  set (g := set_stage c0 GENERATING) in *.
  set (spec := new_specification g content (store_conversation g w1)) in *.
  exists spec.
  assert (conversations w' !! conversation_id = Some (completed_with c0 spec)) as Hstored.
  { rewrite Hw'. simpl. by rewrite Hid0, lookup_insert_eq. }
  assert (specifications w' !! ps_id spec = Some spec) as Hspec.
  { rewrite Hw'. simpl. apply lookup_insert_eq. }
  assert (ps_id spec = uuid_str (uuid_supply w)
          /\ ps_version spec = 1%Z
          /\ ps_user_id spec = current_user
          /\ ps_project_name spec = project_name_or_default (project_name c))
    as (Hps & Hversion & Howner & Hproject).
  { simpl. by rewrite Hsupply, Hname. }
  assert (r_spec_id response = Some (ps_id spec)) as Hrid by (by rewrite Hresp).
  clearbody spec.
  split; [done|]. split; [done|]. split; [done|]. split; [done|]. split; [done|]. split.
  - unfold get_specification, bind, repository_get_specification. rewrite Hspec.
    rewrite bool_decide_false by (intros Hne; by apply Hne). by rewrite Hversion.
  - intros deps' message'.
    pose proof (send_message_cases deps' conversation_id message' current_user w') as Hnext.
    unfold send_message_behaviour in Hnext.
    rewrite Hstored, decide_True in Hnext by done. simpl in Hnext. rewrite Hspec in Hnext.
    destruct (send_message deps' conversation_id message' current_user w') as [r2 w2].
    simpl in Hnext. by destruct Hnext as [-> ->].
Qed.


Lemma for_attempt_returned self user_prompt attempts : forall errors calls r n,
  for_attempt self user_prompt attempts errors calls = (Return (Some r), n) ->
  exists k, k ∈ attempts /\ attempt_body self user_prompt k = Return r.
Proof.
  induction attempts as [|attempt attempts IH]; intros errors calls r n; simpl; [done|].
  destruct (attempt_body self user_prompt attempt) as [r'|e] eqn:Hbody.
  - intros [= <- _]. exists attempt. split; [apply list_elem_of_here|done].
  - destruct (attempt =? max_retries self)%Z; [done|].
    intros (k & Hk & Hr)%IH. exists k. split; [by apply list_elem_of_further|done].
Qed.

Lemma analyze_prompt_returned self user_prompt r :
  fst (analyze_prompt self user_prompt) = Return (Some r) ->
  exists k, (0 <= k <= max_retries self)%Z /\ attempt_body self user_prompt k = Return r.
Proof.
  unfold analyze_prompt, range. destruct (negb _); [done|].
  destruct (for_attempt _ _ _ _ _) as [o n] eqn:Hrun. simpl. intros ->.
  apply for_attempt_returned in Hrun as (k & Hk & Hr).
  exists k. split; [|done]. apply elem_of_seqZ in Hk. lia.
Qed.

(** X17. The background task never raises. When the conversation is
    not found, when the prompt is blank, or when every attempt of the
    analysis fails, it leaves the world exactly as it was: the
    conversation stays as stored, with no question installed. *)
Theorem analyze_initial_prompt_failures_are_silent
    (analysis_engine : Engine) (conversation_id prompt : string) (w : World) :
  fst (analyze_initial_prompt analysis_engine conversation_id prompt w) = Return tt
  /\ (conversations w !! conversation_id = None ->
      snd (analyze_initial_prompt analysis_engine conversation_id prompt w) = w)
  /\ (all_space prompt = true ->
      snd (analyze_initial_prompt analysis_engine conversation_id prompt w) = w)
  /\ ((forall k, (0 <= k <= max_retries analysis_engine)%Z ->
         exists e, attempt_body analysis_engine prompt k = Raise e) ->
      snd (analyze_initial_prompt analysis_engine conversation_id prompt w) = w).
Proof.
  rewrite analyze_initial_prompt_run. simpl. split; [done|]. split; [|split].
  - by intros ->.
  - intros Hblank%strip_empty. rewrite analyze_prompt_empty by done.
    by destruct (conversations w !! conversation_id).
  - intros Hfail. destruct (conversations w !! conversation_id); [|done].
    destruct (fst (analyze_prompt analysis_engine prompt)) as [[r|]|e] eqn:Hrun; try done.
    apply analyze_prompt_returned in Hrun as (k & Hk & Hr).
    destruct (Hfail k Hk) as [e He]. congruence.
Qed.

(** X18. [generate_specification] either raises and leaves the world
    untouched, or returns a specification that is stored under a fresh
    id, has version 1 and the conversation's owner, carries the project
    name of the conversation and "Untitled Project" when that name is
    absent or empty, and is refused with 403 to everyone but the
    owner; the conversations are not touched. *)
Theorem generate_specification_all_or_nothing
    (deps : Collaborators) (c : ConversationState) (w : World) :
  match generate_specification deps c w with
  | (Raise _, w') => w' = w
  | (Return spec, w') =>
      ps_id spec = uuid_str (uuid_supply w)
      /\ ps_version spec = 1%Z
      /\ ps_user_id spec = user_id c
      /\ (forall name, project_name c = Some name -> name <> EmptyString ->
            ps_project_name spec = name)
      /\ (project_name c = None \/ project_name c = Some EmptyString ->
            ps_project_name spec = "Untitled Project")
      /\ specifications w' !! ps_id spec = Some spec
      /\ conversations w' = conversations w
      /\ (forall other, other <> user_id c ->
            get_specification (ps_id spec) other w'
            = (Raise (HTTPException HTTP_403_FORBIDDEN
                        "You don't have access to this specification"), w'))
  end.
Proof.
  rewrite generate_specification_run.
  destruct (enrich_conversation_data deps c) as [enriched_data|]; [|done].
  destruct (spec_generator_generate_specification deps c enriched_data)
    as [spec_content|]; [|done].
  split; [done|]. split; [done|]. split; [done|]. split; [|split; [|split; [|split]]].
  - intros name Hname Hne. simpl. rewrite Hname. simpl. by destruct name.
  - intros [Hname|Hname]; simpl; by rewrite Hname.
  - apply (lookup_insert_eq (M:=gmap string)).
  - done.
  - intros other Hother.
    unfold get_specification, bind, repository_get_specification. simpl.
    rewrite (lookup_insert_eq (M:=gmap string)). simpl.
    by rewrite bool_decide_true by (intros Heq; by apply Hother).
Qed.



(** X19. The placeholder authentication makes every token the user
    "test_user": a conversation started with one token is stored as
    test_user's, and a message sent with any other token is accepted as
    the owner's, so that it triggers the generation (the reply is in
    COMPLETED, or the request fails with 500). *)
Theorem any_token_continues_a_started_conversation
    (deps : Collaborators) (token1 token2 prompt message : string)
    (name level : option string) (w : World) :
  let cid := uuid_str (uuid_supply w) in
  let w1 := snd (start_conversation prompt name level (get_current_user token1) w) in
  (r_conversation_id
     <$> match fst (start_conversation prompt name level (get_current_user token1) w) with
         | Return response => Some response
         | Raise _ => None
         end) = Some cid
  /\ (user_id <$> conversations w1 !! cid) = Some "test_user"
  /\ match fst (send_message deps cid message (get_current_user token2) w1) with
     | Return response => r_stage response = COMPLETED
     | Raise e => exists detail, e = HTTPException HTTP_500_INTERNAL_SERVER_ERROR detail
     end.
Proof.
  intros cid w1. split; [done|].
  assert (conversations w1 !! cid
          = Some {| conv_id := cid; user_id := "test_user"; stage := COLLECTING;
                    initial_prompt := prompt; project_name := name;
                    user_skill_level := level; analyzed := false;
                    analysis_result := None; open_questions := [];
                    message_log := []; spec_id := None |}) as Hstored.
  { apply (lookup_insert_eq (M:=gmap string)). }
  split; [by rewrite Hstored|].
  pose proof (send_message_cases deps cid message (get_current_user token2) w1) as Hcases.
  unfold send_message_behaviour in Hcases. rewrite Hstored in Hcases. simpl in Hcases.
  destruct (fst (send_message deps cid message (get_current_user token2) w1)) as [resp|e].
  - by apply completes_return in Hcases as (content & -> & _).
  - by apply completes_raise in Hcases as [Hr _].
Qed.

(** * Instances of the properties above *)

(** The translations of three terms at the default threshold: the term
    at exactly 0.7 is in, and being the later "login" it wins; the
    term at 0.5 is out. *)
Example get_technical_translations_default :
  get_technical_translations result_with_terms default_min_confidence !! "login"
  = Some "session management"
  /\ get_technical_translations result_with_terms default_min_confidence !! "cloud" = None.
Proof. split; reflexivity. Qed.


(** X11 on the two results with labels that are not recognized. *)
Lemma unknown_bucket_contents_witness :
  extract_requirements_by_type result_three_categories !! UNKNOWN
  = Some ["Budget under 10k"; "Encrypt uploads"]
  /\ extract_requirements_by_type result_unknown_last !! UNKNOWN = Some ["Dark mode"].
Proof.
  split.
  - destruct (unknown_bucket_contents result_three_categories) as [Habsent _].
    apply Habsent. simpl. rewrite !elem_of_cons, elem_of_nil. intros Hin.
    repeat destruct Hin as [Hin|Hin]; discriminate || done.
  - destruct (unknown_bucket_contents result_unknown_last) as [_ Hpresent].
    apply (Hpresent [("security", ["Encrypt uploads"])] ["Dark mode"] []).
    + reflexivity.
    + apply not_elem_of_nil.
Defined.

(** X12 on the conversation a failed generation has left in
    GENERATING: the 400 of the body leaves the handler as a 500. *)
Lemma send_message_errors_are_403_404_500_witness :
  process_message deps_ok "uuid-0" "Any news?"
    (set_stage (conversation_started "test_user") GENERATING) stuck_generating
  = (Raise (HTTPException HTTP_400_BAD_REQUEST
              "Invalid conversation stage: ConversationStage.GENERATING"),
     stuck_generating)
  /\ send_message deps_ok "uuid-0" "Any news?" "test_user" stuck_generating
     = (Raise (HTTPException HTTP_500_INTERNAL_SERVER_ERROR
                 ("Failed to process message: "
                  +:+ str (HTTPException HTTP_400_BAD_REQUEST
                             "Invalid conversation stage: ConversationStage.GENERATING"))),
        stuck_generating).
Proof.
  destruct (send_message_errors_are_403_404_500 deps_ok "uuid-0" "Any news?" "test_user"
              stuck_generating
              (Some (set_stage (conversation_started "test_user") GENERATING)))
    as [_ Hinner].
  - reflexivity.
  - apply Hinner.
    + reflexivity.
    + reflexivity.
    + left. split; reflexivity.
Defined.

(** X15 on the started conversation when the enrichment is down: the
    conversation is stuck, also for collaborators that work. *)
Lemma failed_generation_is_a_dead_end_witness :
  let w' := snd (send_message deps_enrichment_down "uuid-0" "It also needs albums."
                   "test_user" (started "test_user")) in
  (exists g,
     conversations w' !! "uuid-0" = Some g
     /\ stage g = GENERATING /\ open_questions g = []
     /\ spec_id g = spec_id (conversation_started "test_user"))
  /\ specifications w' = specifications (started "test_user")
  /\ forall deps' messages,
       answer_each deps' "uuid-0" "test_user" messages w'
       = (replicate (length messages) refused_in_generating, w').
Proof.
  apply (failed_generation_is_a_dead_end deps_enrichment_down "uuid-0"
           "It also needs albums." "test_user" (started "test_user")
           (conversation_started "test_user")
           (HTTPException HTTP_500_INTERNAL_SERVER_ERROR
              "Failed to process message: enrichment unavailable")).
  - apply started_lookup.
  - reflexivity.
  - reflexivity.
  - left. split; reflexivity.
  - reflexivity.
Defined.

(** X16 on the started conversation and the early message. *)
Lemma completed_conversation_serves_its_specification_witness :
  exists spec,
    Some "uuid-1" = Some (ps_id spec)
    /\ ps_id spec = uuid_str (uuid_supply (started "test_user"))
    /\ ps_version spec = 1
    /\ ps_user_id spec = "test_user"
    /\ ps_project_name spec = "PhotoShare"
    /\ get_specification (ps_id spec) "test_user" early_message
       = (Return {| sr_spec_id := ps_id spec; sr_project_name := ps_project_name spec;
                    sr_content := ps_content spec; sr_created_at := ps_created_at spec;
                    sr_version := 1 |}, early_message)
    /\ forall deps' message',
         send_message deps' "uuid-0" message' "test_user" early_message
         = (Return {| r_conversation_id := "uuid-0";
                      r_message := "Your project '" +:+ ps_project_name spec
                        +:+ "' specification is complete. You can view the full details using the spec_id.";
                      r_stage := COMPLETED; r_awaiting_user := false;
                      r_spec_ready := true; r_spec_id := Some (ps_id spec) |},
            early_message).
Proof.
  exact (completed_conversation_serves_its_specification deps_ok "uuid-0"
           "It also needs albums." "test_user" (started "test_user")
           (conversation_started "test_user")
           {| r_conversation_id := "uuid-0"; r_message := reply_after_collecting;
              r_stage := COMPLETED; r_awaiting_user := false;
              r_spec_ready := true; r_spec_id := Some "uuid-1" |}
           (started_lookup "test_user") eq_refl eq_refl
           (fun H : COLLECTING = COMPLETED => eq_ind COLLECTING
              (fun s => match s with COLLECTING => True | _ => False end) I COMPLETED H)
           eq_refl eq_refl).
Defined.
